(** * tree-marker: the schema combinators [simple], [complex] and [byKey]

    A shallow embedding of [src/index.ts].  The library builds JavaScript
    objects whose fields are partly ordinary data properties and partly
    accessor properties (getters installed with [Object.defineProperty]),
    and, for [byKey], function objects carrying extra fields.  The model
    therefore has

    - JavaScript values with own properties, property attributes and an
      optional call behaviour;
    - a small state-and-exception monad: the state holds the allocation
      counter that gives every created object its identity and a trace in
      which instrumented schemas record their invocations; the exception
      is the [TypeError] that [Object.defineProperty] and strict-mode
      assignment can throw;
    - the three combinators, written statement by statement after the
      source. *)

From Stdlib Require Import Ascii.
From stdpp Require Import gmap strings list fin_maps pretty.

Set Warnings "-register-all".

Open Scope string_scope.
Open Scope list_scope.

(** ** Interpreter state, results and the monad *)

(** Identities are given to the objects that are values of the model: the
    markers, their [nodeProps] objects and the keyed containers.  The
    getter closures and property descriptors that [complex] creates are
    never handed out as values and get none. *)
Record State := mkState {
  next_id : nat;                     (* identity of the next object created *)
  trace : list (string * string)     (* (tag, argument) of traced schema calls *)
}.

Inductive Error := TypeError.

Inductive Res (A : Type) :=
| Ok (a : A) (s : State)
| Throw (e : Error) (s : State).
Arguments Ok {A} a s.
Arguments Throw {A} e s.

Definition M (A : Type) : Type := State → Res A.

Definition ret {A} (a : A) : M A := λ s, Ok a s.

Definition bind {A B} (m : M A) (k : A → M B) : M B :=
  λ s, match m s with
       | Ok a s' => k a s'
       | Throw e s' => Throw e s'
       end.

Definition throw {A} (e : Error) : M A := λ s, Throw e s.

Notation "'let*' x ':=' m 'in' k" := (bind m (λ x, k))
  (at level 10, x name, m at level 100, k at level 200, only parsing).

(** Allocation of an object identity. *)
Definition fresh : M nat :=
  λ s, Ok (next_id s) (mkState (S (next_id s)) (trace s)).

(** Recording of one invocation, used by instrumented schemas only. *)
Definition emit (tag arg : string) : M unit :=
  λ s, Ok tt (mkState (next_id s) (trace s ++ [(tag, arg)])).

(** ** Values *)

(** The argument of a keyed marker: typed [string] in the source, but
    interpolated into a template literal, so that a number is accepted at
    run time and converted with ToString.  The numbers of the model are
    the safe integers, of magnitude below 2^53: exactly these are
    integers a double holds without rounding, and ToString prints them in
    plain decimal notation.  [KNumber 2 I] is the key [2]. *)
Inductive Key :=
| KString (s : string)
| KNumber (n : Z) (safe : Is_true (Z.abs n <? 2 ^ 53)%Z).

(** ToString of a key. *)
Definition stringify (k : Key) : string :=
  match k with
  | KString s => s
  | KNumber n _ => pretty n
  end.

(** An own property: a data property with its [[Writable]],
    [[Enumerable]], [[Configurable]] attributes, or an accessor property
    with its getter (none of the library's accessors has a setter) and its
    [[Enumerable]], [[Configurable]] attributes. *)
Inductive property (V : Type) :=
| Data (v : V) (writable enumerable configurable : bool)
| Accessor (get : M V) (enumerable configurable : bool).
Arguments Data {V} v writable enumerable configurable.
Arguments Accessor {V} get enumerable configurable.

Inductive val :=
| VUndefined
| VNumber (n : Z)
| VString (s : string)
| VObject (id : nat)
          (call : option (Key → M val))
          (props : gmap string (property val)).

(** [Schema<M>]: a function from the attribute value to a marker. *)
Abbreviation Schema := (string → M val).

(** ** The JavaScript operations the source uses *)

(** An object literal [{ k1: e1, ..., kn: en }]: the object is created
    first, then the initialisers run in order; every field becomes a
    writable, enumerable, configurable data property. *)
Fixpoint init_fields (fields : list (string * M val))
    (props : gmap string (property val)) : M (gmap string (property val)) :=
  match fields with
  | [] => ret props
  | (k, e) :: rest =>
      let* v := e in
      init_fields rest (<[k := Data v true true true]> props)
  end.

Definition object_literal (fields : list (string * M val)) : M val :=
  let* id := fresh in
  let* props := init_fields fields ∅ in
  ret (VObject id None props).

(** An arrow function expression bound to a name: a function object with
    the intrinsic, non-enumerable own properties [length] and [name]. *)
Definition arrow_function (name : string) (arity : Z) (body : Key → M val)
    : M val :=
  let* id := fresh in
  ret (VObject id (Some body)
         (<["name" := Data (VString name) false false true]>
            (<["length" := Data (VNumber arity) false false true]> ∅))).

(** [o[k]] for the own properties of [o]: an own data property yields its
    value, an own accessor runs its getter.  The prototypes are not
    modelled: for a key that is no own property the model answers
    [undefined], which is the code's answer only where no prototype has
    the key (the code finds [toString] on every object, and reading
    [caller] or [arguments] on a function throws).  The statements
    therefore read own properties, or compare two reads of one key on
    objects of the same kind. *)
Definition Get (o : val) (k : string) : M val :=
  match o with
  | VObject _ _ props =>
      match props !! k with
      | Some (Data v _ _ _) => ret v
      | Some (Accessor get _ _) => get
      | None => ret VUndefined
      end
  | VUndefined => throw TypeError
  | _ => ret VUndefined
  end.

(** [o.k = v] in strict mode (the source is an ES module). *)
Definition Put (o : val) (k : string) (v : val) : M val :=
  match o with
  | VObject id call props =>
      match props !! k with
      | None => ret (VObject id call (<[k := Data v true true true]> props))
      | Some (Data _ true e c) =>
          ret (VObject id call (<[k := Data v true e c]> props))
      | Some _ => throw TypeError
      end
  | _ => throw TypeError
  end.

(** [Object.defineProperty(o, k, { get })].  A new property is created
    non-enumerable and non-configurable.  An existing configurable property
    becomes an accessor and keeps its [[Enumerable]] and [[Configurable]]
    attributes.  An existing non-configurable property rejects the
    definition (the getter is a fresh closure, never the one installed). *)
Definition Object_defineProperty (o : val) (k : string) (get : M val)
    : M val :=
  match o with
  | VObject id call props =>
      match props !! k with
      | None => ret (VObject id call (<[k := Accessor get false false]> props))
      | Some (Data _ _ e true) | Some (Accessor _ e true) =>
          ret (VObject id call (<[k := Accessor get e true]> props))
      | Some _ => throw TypeError
      end
  | _ => throw TypeError
  end.

(** [f(k)] *)
Definition Call (f : val) (k : Key) : M val :=
  match f with
  | VObject _ (Some body) _ => body k
  | _ => throw TypeError
  end.

(** [Object.keys(nodes)]: the keys of the dictionary, each once.
    JavaScript lists them in a fixed order (integer-like keys first, then
    order of insertion), and the own keys of an object are ordered by
    their creation.  The dictionary and the own properties of an object
    are finite maps here: the model represents which own properties an
    object has, with their attributes and contents, not the order of its
    own keys, and no statement speaks of that order. *)
Definition Object_keys {A} (nodes : gmap string A) : list string :=
  (map_to_list nodes).*1.

(** [keys.forEach(body)], where the body updates the object [o] in place. *)
Fixpoint forEach (keys : list string) (body : string → val → M val)
    (o : val) : M val :=
  match keys with
  | [] => ret o
  | key :: rest => let* o' := body key o in forEach rest body o'
  end.

(** ** The library *)

Definition DATA_TEST_ATTR : string := "data-test".

(** [export const simple: Schema<Marker> = (value) => ({ ... })] *)
Definition simple : Schema := λ value,
  object_literal
    [ ("value", ret (VString value));
      ("selector",
         ret (VString ("[" +:+ DATA_TEST_ATTR +:+ "='" +:+ value +:+ "']")));
      ("nodeProps", object_literal [ (DATA_TEST_ATTR, ret (VString value)) ]) ].

(** [export function complex(nodes)] *)
Definition complex (nodes : gmap string Schema) : Schema := λ value,
  let* result := simple value in
  forEach (Object_keys nodes) (λ key result,
    let child := nodes !! key in
    Object_defineProperty result key
      (match child with
       | Some child => child (value +:+ "/" +:+ key)
       | None => throw TypeError
       end)) result.

(** [export function byKey(schema)] *)
Definition byKey (schema : Schema) : Schema := λ value,
  let* result :=
    arrow_function "result" 1
      (λ key, schema (value +:+ "/" +:+ stringify key)) in
  let* result := Put result "value" (VString value) in
  let* result :=
    Put result "selector"
      (VString ("[" +:+ DATA_TEST_ATTR +:+ "='" +:+ value +:+ "']")) in
  let* nodeProps := object_literal [ (DATA_TEST_ATTR, ret (VString value)) ] in
  let* result := Put result "nodeProps" nodeProps in
  ret result.

(** A schema that records each of its invocations before delegating: the
    counting stub of a test. *)
Definition traced (tag : string) (schema : Schema) : Schema := λ value,
  let* _ := emit tag value in schema value.

(** ** Vocabulary for the statements *)

Abbreviation props_t := (gmap string (property val)).

(** The template literal [[${DATA_TEST_ATTR}='${value}']]. *)
Definition selector_of (value : string) : string :=
  "[" +:+ DATA_TEST_ATTR +:+ "='" +:+ value +:+ "']".

(** The property map of [{ [DATA_TEST_ATTR]: value }]. *)
Definition nodeProps_props (value : string) : props_t :=
  <[DATA_TEST_ATTR := Data (VString value) true true true]> ∅.

(** The three marker fields over the own properties [base] the object had
    before, in the order [simple] and [byKey] create them; [id'] is the
    identity of the nested [nodeProps] object. *)
Definition marker_props (value : string) (id' : nat) (base : props_t)
    : props_t :=
  <["nodeProps" :=
      Data (VObject id' None (nodeProps_props value)) true true true]>
    (<["selector" := Data (VString (selector_of value)) true true true]>
       (<["value" := Data (VString value) true true true]> base)).

(** The intrinsic own properties of the arrow function in [byKey]. *)
Definition function_props : props_t :=
  <["name" := Data (VString "result") false false true]>
    (<["length" := Data (VNumber 1) false false true]> ∅).

(** The three attribute names of a [Marker]. *)
Definition reserved (k : string) : bool :=
  bool_decide (k = "value" ∨ k = "selector" ∨ k = "nodeProps").

(** The getter [() => child(`${value}/${key}`)] that [complex] installs
    under [key]. *)
Definition getter (nodes : gmap string Schema) (value key : string) : M val :=
  match nodes !! key with
  | Some child => child (value +:+ "/" +:+ key)
  | None => throw TypeError
  end.

(** The body of the loop in [complex]. *)
Definition loop_body (nodes : gmap string Schema) (value : string)
    : string → val → M val :=
  λ key result, Object_defineProperty result key (getter nodes value key).

Definition configurable_of (p : property val) : bool :=
  match p with
  | Data _ _ _ c | Accessor _ _ c => c
  end.

Definition enumerable_of (p : property val) : bool :=
  match p with
  | Data _ _ e _ | Accessor _ e _ => e
  end.

(** The property that [Object.defineProperty(o, k, { get })] leaves under
    [k] when [old] was there before and the definition is accepted. *)
Definition defined_accessor (get : M val) (old : option (property val))
    : property val :=
  match old with
  | None => Accessor get false false
  | Some p => Accessor get (enumerable_of p) true
  end.

(** The own properties of the object that [complex nodes] returns: one
    accessor per declared key, over the three fields of [simple]. *)
Definition complex_props (nodes : gmap string Schema) (value : string)
    (id' : nat) : props_t :=
  map_imap (λ key _,
      Some (Accessor (getter nodes value key) (reserved key) (reserved key)))
    nodes
  ∪ marker_props value id' ∅.

(** The state after an invocation that created [n] objects and called no
    traced schema. *)
Definition allocated (n : nat) (s : State) : State :=
  mkState (n + next_id s) (trace s).

Definition identity (o : val) : option nat :=
  match o with
  | VObject id _ _ => Some id
  | _ => None
  end.

Definition own_props (o : val) : props_t :=
  match o with
  | VObject _ _ props => props
  | _ => ∅
  end.

(** [Object.keys(o)] as a predicate: the enumerable own properties. *)
Definition enumerable_key (o : val) (k : string) : Prop :=
  ∃ p, own_props o !! k = Some p ∧ enumerable_of p = true.

(** How often the schema traced under [tag] has been invoked. *)
Definition invocations (tag : string) (s : State) : nat :=
  length (filter (λ e, e.1 = tag) (trace s)).

(** *** Schemas built with the library *)

(** The schemas obtained from the three combinators alone, all declared
    child keys satisfying [P]. *)
Inductive built (P : string → Prop) : Schema → Prop :=
| built_simple : built P simple
| built_complex nodes :
    (∀ k child, nodes !! k = Some child → P k ∧ built P child) →
    built P (complex nodes)
| built_byKey schema : built P schema → built P (byKey schema).

Definition any_key (k : string) : Prop := True.

(** Reading [value] on the marker [m] yields the string [x]. *)
Definition has_value (m : val) (x : string) : Prop :=
  ∀ u, Get m "value" u = Ok (VString x) u.

(** A schema whose markers show under [value] the very path they were
    built with. *)
Definition keeps_value (schema : Schema) : Prop :=
  ∀ path s, ∃ m t, schema path s = Ok m t ∧ has_value m path.

(** *** Structural equality *)

(** Two results are alike up to [R] when both are markers related by [R]. *)
Definition sim_res (R : val → val → Prop) (r1 r2 : Res val) : Prop :=
  match r1, r2 with
  | Ok a _, Ok b _ => R a b
  | _, _ => False
  end.

(** Two computations are alike when their results are, whatever the states
    they start from. *)
Definition sim_comp (R : val → val → Prop) (m1 m2 : M val) : Prop :=
  ∀ s1 s2, sim_res R (m1 s1) (m2 s2).

Definition sim_prop (R : val → val → Prop)
    (p1 p2 : option (property val)) : Prop :=
  match p1, p2 with
  | None, None => True
  | Some (Data a w e c), Some (Data b w' e' c') =>
      R a b ∧ w = w' ∧ e = e' ∧ c = c'
  | Some (Accessor g e c), Some (Accessor h e' c') =>
      sim_comp R g h ∧ e = e' ∧ c = c'
  | _, _ => False
  end.

Definition sim_call (R : val → val → Prop)
    (c1 c2 : option (Key → M val)) : Prop :=
  match c1, c2 with
  | None, None => True
  | Some f, Some g => ∀ x, sim_comp R (f x) (g x)
  | _, _ => False
  end.

(** Equality of two values observed to depth [n]: the same primitive, or
    two objects (of whatever identity) with the same own property names
    and attributes, alike data fields, and getters and call behaviours
    whose results are alike to depth [n - 1]. *)
Fixpoint sim (n : nat) (a b : val) : Prop :=
  match n with
  | 0 => True
  | S n =>
      match a, b with
      | VUndefined, VUndefined => True
      | VNumber x, VNumber y => x = y
      | VString x, VString y => x = y
      | VObject _ c1 p1, VObject _ c2 p2 =>
          sim_call (sim n) c1 c2 ∧
          ∀ k, sim_prop (sim n) (p1 !! k) (p2 !! k)
      | _, _ => False
      end
  end.

Definition structurally_equal (a b : val) : Prop := ∀ n, sim n a b.

(** *** Paths *)

(** The segments of a path: the pieces between the separators. *)
Fixpoint split_path (p : string) : list string :=
  match p with
  | EmptyString => [""]
  | String c rest =>
      if Ascii.eqb c "/"%char then "" :: split_path rest
      else match split_path rest with
           | seg :: segs => String c seg :: segs
           | [] => [String c ""]
           end
  end.

Fixpoint no_separator (k : string) : bool :=
  match k with
  | EmptyString => true
  | String c rest => negb (Ascii.eqb c "/"%char) && no_separator rest
  end.

(** A well-formed segment or key: not empty, without separator. *)
Definition segment_ok (k : string) : Prop :=
  k ≠ "" ∧ no_separator k = true.

(** A well-formed path: none of its segments is empty. *)
Definition path_ok (p : string) : Prop := "" ∉ split_path p.

(** A declared key fit for a path segment that leaves [value] alone. *)
Definition wf_key (k : string) : Prop := segment_ok k ∧ k ≠ "value".

(** The path below [value] along the keys [ks]. *)
Definition join (value : string) (ks : list string) : string :=
  foldl (λ p k, p +:+ "/" +:+ k) value ks.

(** Reading the fields [ks] one after the other, starting from [o]. *)
Fixpoint read_path (ks : list string) (o : val) : M val :=
  match ks with
  | [] => ret o
  | k :: rest => let* m := Get o k in read_path rest m
  end.

(** [nests S ks X]: [S] is a chain of composites that declares the keys
    [ks] one inside the other and ends in the schema [X]. *)
Inductive nests : Schema → list string → Schema → Prop :=
| nests_here X : nests X [] X
| nests_child nodes k child ks X :
    nodes !! k = Some child → nests child ks X →
    nests (complex nodes) (k :: ks) X.

(** The markers reachable from the result of [schema value]: the result
    itself, what a declared child field reads, and what a keyed container
    returns for a well-formed key. *)
Inductive produced (schema : Schema) (value : string) : val → Prop :=
| produced_root s m t :
    schema value s = Ok m t → produced schema value m
| produced_field o k get e c s m t :
    produced schema value o →
    own_props o !! k = Some (Accessor get e c) →
    get s = Ok m t → produced schema value m
| produced_call o x s m t :
    produced schema value o → segment_ok (stringify x) →
    Call o x s = Ok m t → produced schema value m.

(** *** The properties as laws *)

(** Path composition: the child field [k] of [complex nodes value] reads
    as a marker whose [value] is [value/k]. *)
Definition path_composition_law (nodes : gmap string Schema)
    (k value : string) : Prop :=
  ∀ s, ∃ m t,
    (let* o := complex nodes value in Get o k) s = Ok m t ∧
    has_value m (value +:+ "/" +:+ k).

(** Selector derivation: the marker's [selector] is the literal
    concatenation around its [value]. *)
Definition selector_law (schema : Schema) (value : string) : Prop :=
  ∀ s, ∃ m t x,
    schema value s = Ok m t ∧ has_value m x ∧
    ∀ u, Get m "selector" u = Ok (VString ("[data-test='" +:+ x +:+ "']")) u.

(** nodeProps: the marker's [nodeProps] is an object whose single own
    property is [data-test], holding the marker's [value]. *)
Definition nodeProps_law (schema : Schema) (value : string) : Prop :=
  ∀ s, ∃ m t x,
    schema value s = Ok m t ∧ has_value m x ∧
    ∀ u, ∃ id,
      Get m "nodeProps" u =
      Ok (VObject id None {[ "data-test" := Data (VString x) true true true ]}) u.

(** Keyed addressing, second half: for two keys that stringify
    differently, the two markers have values that differ only in the final
    path segment: split at the separator, they have the same segments up
    to the last one, and different last segments. *)
Definition keyed_values_law (schema : Schema) (value : string)
    (x1 x2 : Key) : Prop :=
  stringify x1 ≠ stringify x2 →
  ∀ s, ∃ c t m1 t1 m2 t2 y1 y2,
    byKey schema value s = Ok c t ∧
    Call c x1 t = Ok m1 t1 ∧ Call c x2 t1 = Ok m2 t2 ∧
    has_value m1 y1 ∧ has_value m2 y2 ∧ y1 ≠ y2 ∧
    ∃ init last1 last2,
      split_path y1 = init ++ [last1] ∧ split_path y2 = init ++ [last2] ∧
      last1 ≠ last2.

(** Purity: two invocations in a row give two objects of different
    identity that are structurally equal; they have the same own keys,
    what a field reads is structurally equal on both, and so is what they
    return when called. *)
Definition twice_alike (schema : Schema) : Prop :=
  ∀ value s, ∃ m1 t1 m2 t2,
    schema value s = Ok m1 t1 ∧ schema value t1 = Ok m2 t2 ∧
    identity m1 ≠ identity m2 ∧
    structurally_equal m1 m2 ∧
    (∀ k, is_Some (own_props m1 !! k) ↔ is_Some (own_props m2 !! k)) ∧
    (∀ k u1 u2,
        is_Some (own_props m1 !! k) →
        ∃ r1 u1' r2 u2',
          Get m1 k u1 = Ok r1 u1' ∧ Get m2 k u2 = Ok r2 u2' ∧
          structurally_equal r1 r2) ∧
    (∀ x u1 u2 r1 u1',
        Call m1 x u1 = Ok r1 u1' →
        ∃ r2 u2', Call m2 x u2 = Ok r2 u2' ∧ structurally_equal r1 r2).

(** A schema that calls no traced schema when it is invoked. *)
Definition silent (schema : Schema) : Prop :=
  ∀ value s, ∃ m t, schema value s = Ok m t ∧ trace t = trace s.

(** A schema whose results are structurally equal whatever the state it
    is invoked in. *)
Definition deterministic (schema : Schema) : Prop :=
  ∀ n value, sim_comp (sim n) (schema value) (schema value).

(** Every marker reachable from [schema value] has a well-formed path as
    its [value]. *)
Definition segments_law (schema : Schema) (value : string) : Prop :=
  ∀ m, produced schema value m → ∃ p, has_value m p ∧ path_ok p.

(** A schema whose markers show their path under [value] and the
    selector derived from it under [selector]. *)
Definition plain (schema : Schema) : Prop :=
  ∀ path s, ∃ m t,
    schema path s = Ok m t ∧ has_value m path ∧
    ∀ u, Get m "selector" u = Ok (VString (selector_of path)) u.

(** *** Navigation through a tree of markers *)

(** One step down: reading a declared field, or calling a keyed container. *)
Inductive step :=
| Field (k : string)
| Keyed (x : Key).

(** The path segment a step contributes. *)
Definition step_string (st : step) : string :=
  match st with
  | Field k => k
  | Keyed x => stringify x
  end.

(** [o.k1(x2).k3 ...]: the steps taken one after the other from [o]. *)
Fixpoint navigate (steps : list step) (o : val) : M val :=
  match steps with
  | [] => ret o
  | Field k :: rest => let* m := Get o k in navigate rest m
  | Keyed x :: rest => let* m := Call o x in navigate rest m
  end.

(** [leads S steps X]: the steps fit the declaration [S] (a field step at
    a composite that declares the key, a key step at a keyed schema) and
    arrive at the schema [X]. *)
Inductive leads : Schema → list step → Schema → Prop :=
| leads_here X : leads X [] X
| leads_field nodes k child steps X :
    nodes !! k = Some child → leads child steps X →
    leads (complex nodes) (Field k :: steps) X
| leads_key schema x steps X :
    leads schema steps X → leads (byKey schema) (Keyed x :: steps) X.

(** What [join] appends to the root value. *)
Definition suffix (ks : list string) : string :=
  foldr (λ k rest, "/" +:+ k +:+ rest) "" ks.

(** *** The example of the documentation *)

Definition headerSchema : Schema :=
  complex {[ "menu" := complex {[ "button" := simple; "container" := simple ]};
             "loginButton" := simple ]}.

Definition footerSchema : Schema :=
  complex {[ "links" := simple;
             "brands" := complex {[ "container" := simple;
                                    "items" := byKey simple ]} ]}.

Definition appPageSchema : Schema :=
  complex {[ "header" := headerSchema; "footer" := footerSchema ]}.

Definition rootObjectSchema : Schema :=
  complex {[ "appPage" := appPageSchema ]}.

(** [export const rootObject = rootObjectSchema('root')] *)
Definition rootObject : M val := rootObjectSchema "root".

(** [export const appPageObject = rootObject.appPage] *)
Definition appPageObject : M val :=
  let* rootObject := rootObject in Get rootObject "appPage".

(** * Proofs *)

(** ** What one invocation of each combinator builds *)

Lemma simple_run value s :
  simple value s =
  Ok (VObject (next_id s) None (marker_props value (S (next_id s)) ∅))
     (allocated 2 s).
Proof. reflexivity. Qed.

Lemma byKey_run schema value s :
  byKey schema value s =
  Ok (VObject (next_id s)
        (Some (λ key, schema (value +:+ "/" +:+ stringify key)))
        (marker_props value (S (next_id s)) function_props))
     (allocated 2 s).
Proof. reflexivity. Qed.

Lemma defineProperty_ok id call props k get s :
  (∀ p, props !! k = Some p → configurable_of p = true) →
  Object_defineProperty (VObject id call props) k get s =
  Ok (VObject id call (<[k := defined_accessor get (props !! k)]> props)) s.
Proof.
  intros Hc. unfold Object_defineProperty.
  destruct (props !! k) as [[v w e c | g e c] |] eqn:E; try reflexivity;
    specialize (Hc _ eq_refl); simpl in Hc; subst c; reflexivity.
Qed.

Lemma defineProperty_rejected id call props k get p s :
  props !! k = Some p → configurable_of p = false →
  Object_defineProperty (VObject id call props) k get s = Throw TypeError s.
Proof.
  intros E Hc. unfold Object_defineProperty. rewrite E.
  destruct p; simpl in Hc; subst; reflexivity.
Qed.

Section Loop.
Variables (nodes : gmap string Schema) (value : string).

Lemma forEach_define ks :
  NoDup ks → ∀ id call props s,
  (∀ k p, k ∈ ks → props !! k = Some p → configurable_of p = true) →
  ∃ props',
    forEach ks (loop_body nodes value) (VObject id call props) s
    = Ok (VObject id call props') s ∧
    ∀ k, props' !! k =
         if decide (k ∈ ks)
         then Some (defined_accessor (getter nodes value k) (props !! k))
         else props !! k.
Proof.
  induction 1 as [| k ks Hk Hnd IH]; intros id call props s Hc.
  - exists props. split; [reflexivity |].
    intros k. destruct (decide (k ∈ [])) as [Hin |]; [| reflexivity].
    by apply elem_of_nil in Hin.
  - cbn [forEach]. unfold bind at 1. unfold loop_body at 1.
    rewrite defineProperty_ok by (intros p; apply Hc; left).
    destruct (IH id call
                (<[k := defined_accessor (getter nodes value k) (props !! k)]>
                   props) s)
      as (props' & Hrun & Hlook).
    { intros k' p Hin. rewrite lookup_insert_ne by (intros ->; contradiction).
      apply Hc. by right. }
    exists props'. split; [exact Hrun |].
    intros k'. rewrite Hlook.
    destruct (decide (k' = k)) as [-> | Hne].
    + rewrite decide_False by assumption.
      rewrite decide_True by left. apply lookup_insert_eq.
    + rewrite lookup_insert_ne by congruence.
      destruct (decide (k' ∈ ks)) as [Hin | Hnin].
      * rewrite decide_True by (by right). reflexivity.
      * rewrite decide_False; [reflexivity |].
        intros Hin. apply elem_of_cons in Hin as [? | ?]; contradiction.
Qed.

(** The order in which the loop visits the keys does not show in its
    result: enumerating the dictionary in another order, as JavaScript
    does for integer-like keys, builds the same object. *)
Lemma forEach_order ks ks' id call props s :
  NoDup ks → ks ≡ₚ ks' →
  (∀ k p, k ∈ ks → props !! k = Some p → configurable_of p = true) →
  forEach ks (loop_body nodes value) (VObject id call props) s =
  forEach ks' (loop_body nodes value) (VObject id call props) s.
Proof.
  intros Hnd Hperm Hc.
  destruct (forEach_define ks Hnd id call props s Hc) as (p1 & -> & H1).
  destruct (forEach_define ks' (proj1 (NoDup_Permutation_proper _ _ Hperm) Hnd)
              id call props s) as (p2 & -> & H2).
  { intros k p Hin. apply Hc. by rewrite Hperm. }
  f_equal. f_equal. apply map_eq. intros k. rewrite H1, H2.
  destruct (decide (k ∈ ks)) as [Hin | Hnin].
  - rewrite decide_True by (by rewrite <- Hperm). reflexivity.
  - rewrite decide_False by (by rewrite <- Hperm). reflexivity.
Qed.
End Loop.

Lemma marker_props_lookup value id' base k :
  marker_props value id' base !! k =
  if decide (k = "nodeProps")
  then Some (Data (VObject id' None (nodeProps_props value)) true true true)
  else if decide (k = "selector")
  then Some (Data (VString (selector_of value)) true true true)
  else if decide (k = "value")
  then Some (Data (VString value) true true true)
  else base !! k.
Proof.
  unfold marker_props.
  repeat (case_decide; [subst k; by simplify_map_eq |]).
  by rewrite !lookup_insert_ne by congruence.
Qed.

Lemma marker_props_configurable value id' (ks : list string) k p :
  k ∈ ks → marker_props value id' ∅ !! k = Some p → configurable_of p = true.
Proof.
  intros _. rewrite marker_props_lookup.
  repeat case_decide; intros [= <-]; reflexivity.
Qed.

Lemma reserved_spec k :
  reserved k = true ↔ k = "value" ∨ k = "selector" ∨ k = "nodeProps".
Proof. unfold reserved. by rewrite bool_decide_eq_true. Qed.

Lemma marker_props_reserved value id' base k :
  reserved k = true →
  ∃ v, marker_props value id' base !! k = Some (Data v true true true).
Proof.
  intros Hr. apply reserved_spec in Hr as [-> | [-> | ->]];
    rewrite marker_props_lookup; eexists; reflexivity.
Qed.

Lemma marker_props_other value id' base k :
  reserved k = false → marker_props value id' base !! k = base !! k.
Proof.
  intros Hr. rewrite marker_props_lookup.
  assert (¬ (k = "value" ∨ k = "selector" ∨ k = "nodeProps")) as Hn.
  { rewrite <- reserved_spec. congruence. }
  rewrite !decide_False by tauto. reflexivity.
Qed.

Lemma defined_over_marker_props get value id' k :
  defined_accessor get (marker_props value id' ∅ !! k) =
  Accessor get (reserved k) (reserved k).
Proof.
  destruct (reserved k) eqn:Hr.
  - destruct (marker_props_reserved value id' ∅ k Hr) as [v ->]. reflexivity.
  - rewrite marker_props_other, lookup_empty by assumption. reflexivity.
Qed.

Lemma complex_props_lookup nodes value id' k :
  complex_props nodes value id' !! k =
  match nodes !! k with
  | Some child =>
      Some (Accessor (child (value +:+ "/" +:+ k)) (reserved k) (reserved k))
  | None => marker_props value id' ∅ !! k
  end.
Proof.
  unfold complex_props. rewrite lookup_union, map_lookup_imap.
  unfold getter.
  destruct (nodes !! k) as [child |] eqn:E; simpl;
    by destruct (marker_props value id' ∅ !! k).
Qed.

Lemma complex_run nodes value s :
  complex nodes value s =
  Ok (VObject (next_id s) None (complex_props nodes value (S (next_id s))))
     (allocated 2 s).
Proof.
  unfold complex, bind. rewrite simple_run.
  destruct (forEach_define nodes value (Object_keys nodes)
              (NoDup_fst_map_to_list nodes) (next_id s) None
              (marker_props value (S (next_id s)) ∅) (allocated 2 s))
    as (props' & Hrun & Hlook).
  { apply marker_props_configurable. }
  change (forEach (Object_keys nodes) _ _ _) with
    (forEach (Object_keys nodes) (loop_body nodes value)
       (VObject (next_id s) None (marker_props value (S (next_id s)) ∅))
       (allocated 2 s)).
  rewrite Hrun. f_equal. f_equal.
  apply map_eq. intros k. rewrite Hlook, complex_props_lookup.
  unfold Object_keys.
  destruct (nodes !! k) as [child |] eqn:E.
  - rewrite decide_True.
    2:{ apply list_elem_of_fmap. exists (k, child). split; [done |].
        by apply elem_of_map_to_list. }
    unfold getter. rewrite E. f_equal. apply defined_over_marker_props.
  - rewrite decide_False; [reflexivity |].
    intros Hin. apply list_elem_of_fmap in Hin as ([k' child] & -> & Hin).
    apply elem_of_map_to_list in Hin. cbn [fst] in E.
    rewrite E in Hin. discriminate.
Qed.

(** ** Reading the fields *)

Lemma Get_declared (nodes : gmap string Schema) value id id' k
    (child : Schema) u :
  nodes !! k = Some child →
  Get (VObject id None (complex_props nodes value id')) k u =
  child (value +:+ "/" +:+ k) u.
Proof.
  intros E. unfold Get. rewrite complex_props_lookup, E. reflexivity.
Qed.

Lemma Get_undeclared (nodes : gmap string Schema) value id id' k u :
  nodes !! k = None →
  Get (VObject id None (complex_props nodes value id')) k u =
  Get (VObject id None (marker_props value id' ∅)) k u.
Proof.
  intros E. unfold Get. rewrite complex_props_lookup, E. reflexivity.
Qed.

Lemma Get_marker_value id call value id' base u :
  Get (VObject id call (marker_props value id' base)) "value" u =
  Ok (VString value) u.
Proof. unfold Get. rewrite marker_props_lookup. reflexivity. Qed.

Lemma Get_marker_selector id call value id' base u :
  Get (VObject id call (marker_props value id' base)) "selector" u =
  Ok (VString (selector_of value)) u.
Proof. unfold Get. rewrite marker_props_lookup. reflexivity. Qed.

Lemma Get_marker_nodeProps id call value id' base u :
  Get (VObject id call (marker_props value id' base)) "nodeProps" u =
  Ok (VObject id' None (nodeProps_props value)) u.
Proof. unfold Get. rewrite marker_props_lookup. reflexivity. Qed.

Lemma keeps_value_simple : keeps_value simple.
Proof.
  intros path s. do 2 eexists. split; [apply simple_run |].
  intros u. apply Get_marker_value.
Qed.

Lemma keeps_value_byKey schema : keeps_value (byKey schema).
Proof.
  intros path s. do 2 eexists. split; [apply byKey_run |].
  intros u. apply Get_marker_value.
Qed.

Lemma keeps_value_complex (nodes : gmap string Schema) :
  nodes !! "value" = None → keeps_value (complex nodes).
Proof.
  intros E path s. do 2 eexists. split; [apply complex_run |].
  intros u. rewrite Get_undeclared by assumption. apply Get_marker_value.
Qed.

(** ** The empty composite *)

Lemma complex_props_empty value id' :
  complex_props ∅ value id' = marker_props value id' ∅.
Proof.
  apply map_eq. intros k. rewrite complex_props_lookup, lookup_empty.
  reflexivity.
Qed.

Lemma marker_props_dom value id' k :
  is_Some (marker_props value id' ∅ !! k) ↔ reserved k = true.
Proof.
  split.
  - intros Hs. destruct (reserved k) eqn:Hr; [reflexivity |].
    rewrite marker_props_other, lookup_empty in Hs by assumption.
    by destruct Hs.
  - intros Hr. destruct (marker_props_reserved value id' ∅ k Hr) as [v ->].
    by eexists.
Qed.

(** C6.  [complex({})] is [simple]: applied to any root value it runs
    exactly as the leaf constructor does, its result has the three marker
    fields as only own properties, and on ["root"] it is the object
    [{ value: "root", selector: "[data-test='root']",
       nodeProps: { "data-test": "root" } }]. *)
Theorem complex_empty_is_simple :
  (∀ value s, complex ∅ value s = simple value s) ∧
  (∀ value s, ∃ m t,
      complex ∅ value s = Ok m t ∧
      ∀ k, is_Some (own_props m !! k) ↔ reserved k = true) ∧
  complex ∅ "root" (mkState 0 []) =
  Ok (VObject 0 None
        {[ "value" := Data (VString "root") true true true;
           "selector" := Data (VString "[data-test='root']") true true true;
           "nodeProps" :=
             Data (VObject 1 None
                     {[ "data-test" := Data (VString "root") true true true ]})
                  true true true ]})
     (mkState 2 []).
Proof.
  split; [| split].
  - intros value s. rewrite complex_run, simple_run, complex_props_empty.
    reflexivity.
  - intros value s. do 2 eexists. split; [apply complex_run |].
    intros k. cbn [own_props]. rewrite complex_props_empty.
    apply marker_props_dom.
  - rewrite complex_run, complex_props_empty. reflexivity.
Qed.

(** ** Shadowing of the marker attributes *)

(** C8.  A child key named [value], [selector] or [nodeProps] raises no
    error: the schema returns normally, the attribute has become an
    accessor, and reading it returns the child marker for [value/key]. *)
Theorem reserved_key_shadows (nodes : gmap string Schema) (k : string)
    (child : Schema) (value : string) (s : State) :
  reserved k = true → nodes !! k = Some child →
  ∃ o, complex nodes value s = Ok o (allocated 2 s) ∧
       own_props o !! k =
         Some (Accessor (child (value +:+ "/" +:+ k)) true true) ∧
       ∀ u, Get o k u = child (value +:+ "/" +:+ k) u.
Proof.
  intros Hr E. eexists. split; [apply complex_run |]. split.
  - cbn [own_props]. rewrite complex_props_lookup, E, Hr. reflexivity.
  - intros u. by apply Get_declared.
Qed.

Lemma reserved_key_shadows_witness :
  (reserved "value" = true ∧
   ({[ "value" := simple ]} : gmap string Schema) !! "value" = Some simple) ∧
  ∃ o, complex {[ "value" := simple ]} "root" (mkState 0 []) =
         Ok o (allocated 2 (mkState 0 [])) ∧
       own_props o !! "value" =
         Some (Accessor (simple ("root" +:+ "/" +:+ "value")) true true) ∧
       ∀ u, Get o "value" u = simple ("root" +:+ "/" +:+ "value") u.
Proof.
  split.
  - split; reflexivity.
  - apply (reserved_key_shadows {[ "value" := simple ]} "value" simple
             "root" (mkState 0 [])); reflexivity.
Defined.

(** ** Path composition *)

Lemma read_child (nodes : gmap string Schema) (k : string) (child : Schema)
    (value : string) (s : State) :
  nodes !! k = Some child →
  (let* o := complex nodes value in Get o k) s =
  child (value +:+ "/" +:+ k) (allocated 2 s).
Proof.
  intros E. unfold bind. rewrite complex_run. by apply Get_declared.
Qed.

Lemma read_chain S ks X :
  nests S ks X → ∀ value s,
  ∃ t, (let* o := S value in read_path ks o) s = X (join value ks) t ∧
       trace t = trace s.
Proof.
  induction 1 as [X | nodes k child ks X E Hn IH]; intros value s.
  - exists s. split; [| reflexivity]. unfold bind, join. cbn.
    by destruct (X value s).
  - destruct (IH (value +:+ "/" +:+ k) (allocated 2 s)) as (t & Hrun & Ht).
    exists t. split; [| exact Ht].
    change (join value (k :: ks)) with (join (value +:+ "/" +:+ k) ks).
    rewrite <- Hrun. unfold bind. rewrite complex_run. cbn [read_path].
    unfold bind. rewrite (Get_declared _ _ _ _ _ _ _ E). reflexivity.
Qed.

(** C1, as stated, fails where the child is a composite that declares a
    key named [value]: the marker read under [a] then shows the child
    marker for [r/a/value] instead of the string [r/a]. *)
Lemma path_composition_counterexample :
  ¬ path_composition_law {[ "a" := complex {[ "value" := simple ]} ]} "a" "r".
Proof.
  intros H. destruct (H (mkState 0 [])) as (m & t & Hrun & Hval).
  rewrite (read_child _ "a" (complex {[ "value" := simple ]})) in Hrun
    by reflexivity.
  rewrite complex_run in Hrun. injection Hrun as <- <-.
  specialize (Hval (mkState 0 [])).
  rewrite (Get_declared _ _ _ _ "value" simple) in Hval by reflexivity.
  rewrite simple_run in Hval. discriminate Hval.
Qed.

(** C1, amended.  Reading the declared child field [k] of the object that
    [complex nodes] returns for [value] runs the child schema on
    [value/k]; the marker read has the value [value/k] whenever the child
    schema keeps its path under [value], as [simple], every [byKey] schema
    and every composite not declaring the key [value] do; along a chain of
    such composites the deepest marker has the joined path as its value. *)
Theorem path_composition :
  (∀ (nodes : gmap string Schema) k (child : Schema) value s,
      nodes !! k = Some child →
      (let* o := complex nodes value in Get o k) s =
      child (value +:+ "/" +:+ k) (allocated 2 s)) ∧
  (∀ (nodes : gmap string Schema) k (child : Schema) value,
      nodes !! k = Some child → keeps_value child →
      path_composition_law nodes k value) ∧
  (∀ S ks X value s,
      nests S ks X → keeps_value X →
      ∃ m t, (let* o := S value in read_path ks o) s = Ok m t ∧
             has_value m (join value ks)) ∧
  keeps_value simple ∧
  (∀ schema, keeps_value (byKey schema)) ∧
  (∀ nodes : gmap string Schema,
      nodes !! "value" = None → keeps_value (complex nodes)).
Proof.
  split; [| split; [| split; [| split; [| split]]]].
  - intros. by apply read_child.
  - intros nodes k child value E Hk s.
    destruct (Hk (value +:+ "/" +:+ k) (allocated 2 s)) as (m & t & Hrun & Hv).
    exists m, t. split; [| exact Hv].
    rewrite (read_child _ _ _ _ _ E). exact Hrun.
  - intros S ks X value s Hn Hk.
    destruct (read_chain S ks X Hn value s) as (t & Hrun & _).
    destruct (Hk (join value ks) t) as (m & t' & Hx & Hv).
    exists m, t'. split; [| exact Hv]. by rewrite Hrun.
  - exact keeps_value_simple.
  - exact keeps_value_byKey.
  - exact keeps_value_complex.
Qed.

Lemma path_composition_witness :
  (({[ "b" := simple ]} : gmap string Schema) !! "b" = Some simple ∧
   keeps_value simple ∧
   nests (complex {[ "b" := complex {[ "c" := simple ]} ]}) ["b"; "c"] simple) ∧
  ((let* o := complex {[ "b" := simple ]} "a" in Get o "b") (mkState 0 []) =
     simple "a/b" (allocated 2 (mkState 0 [])) ∧
   path_composition_law {[ "b" := simple ]} "b" "a" ∧
   ∃ m t,
     (let* o := complex {[ "b" := complex {[ "c" := simple ]} ]} "a" in
      read_path ["b"; "c"] o) (mkState 0 []) = Ok m t ∧
     has_value m "a/b/c").
Proof.
  assert (nests (complex {[ "b" := complex {[ "c" := simple ]} ]})
            ["b"; "c"] simple) as Hn.
  { apply nests_child with (child := complex {[ "c" := simple ]});
      [reflexivity |].
    apply nests_child with (child := simple); [reflexivity |].
    apply nests_here. }
  destruct path_composition as (H1 & H2 & H3 & Hs & _).
  split; [split; [reflexivity | split; [exact Hs | exact Hn]] |].
  split; [| split].
  - apply (H1 {[ "b" := simple ]} "b" simple "a" (mkState 0 [])). reflexivity.
  - apply (H2 {[ "b" := simple ]} "b" simple "a"); [reflexivity | exact Hs].
  - apply (H3 _ ["b"; "c"] simple "a" (mkState 0 []) Hn Hs).
Defined.

(** ** Selector and nodeProps derivation *)

Lemma selector_of_literal value :
  selector_of value = "[data-test='" +:+ value +:+ "']".
Proof. reflexivity. Qed.

Lemma nodeProps_props_literal value :
  nodeProps_props value =
  {[ "data-test" := Data (VString value) true true true ]}.
Proof. unfold nodeProps_props. apply insert_empty. Qed.

(** C2, as stated, fails for a composite that declares a key named
    [selector]: reading [selector] returns the child marker, not the
    string derived from the value. *)
Lemma selector_derivation_counterexample :
  ¬ selector_law (complex {[ "selector" := simple ]}) "r".
Proof.
  intros H. destruct (H (mkState 0 [])) as (m & t & x & Hrun & _ & Hsel).
  rewrite complex_run in Hrun. injection Hrun as <- <-.
  specialize (Hsel (mkState 0 [])).
  rewrite (Get_declared _ _ _ _ "selector" simple) in Hsel by reflexivity.
  rewrite simple_run in Hsel. discriminate Hsel.
Qed.

(** C2, amended.  [selector] is the literal concatenation
    ["[data-test='" + value + "']"], nothing escaped, for every marker of
    [simple], for every container of [byKey], and for every marker of
    [complex nodes] where [nodes] declares neither [value] nor
    [selector]. *)
Theorem selector_derivation :
  (∀ value, selector_law simple value) ∧
  (∀ schema value, selector_law (byKey schema) value) ∧
  (∀ (nodes : gmap string Schema) value,
      nodes !! "value" = None → nodes !! "selector" = None →
      selector_law (complex nodes) value) ∧
  (∀ s, ∃ m t,
      simple "it's]/[x" s = Ok m t ∧
      ∀ u, Get m "selector" u = Ok (VString "[data-test='it's]/[x']") u).
Proof.
  split; [| split; [| split]].
  - intros value s. do 3 eexists. split; [apply simple_run |].
    split; intros u; [apply Get_marker_value | apply Get_marker_selector].
  - intros schema value s. do 3 eexists. split; [apply byKey_run |].
    split; intros u; [apply Get_marker_value | apply Get_marker_selector].
  - intros nodes value Ev Es s. do 3 eexists. split; [apply complex_run |].
    split; intros u; rewrite Get_undeclared by assumption;
      [apply Get_marker_value | apply Get_marker_selector].
  - intros s. do 2 eexists. split; [apply simple_run |].
    intros u. apply Get_marker_selector.
Qed.

Lemma selector_derivation_witness :
  ((({[ "header" := simple ]} : gmap string Schema) !! "value" = None) ∧
   (({[ "header" := simple ]} : gmap string Schema) !! "selector" = None)) ∧
  selector_law (complex {[ "header" := simple ]}) "root".
Proof.
  split; [split; reflexivity |].
  apply (proj1 (proj2 (proj2 selector_derivation))); reflexivity.
Defined.




(** ** Structural equality of what the combinators build *)

Lemma sim_string n x : sim n (VString x) (VString x).
Proof. by destruct n. Qed.

Lemma sim_number n x : sim n (VNumber x) (VNumber x).
Proof. by destruct n. Qed.

Lemma sim_undefined n : sim n VUndefined VUndefined.
Proof. by destruct n. Qed.

Create HintDb sim.
#[local] Hint Resolve sim_string sim_number sim_undefined : sim.

Lemma sim_nodeProps n value id1 id2 :
  sim n (VObject id1 None (nodeProps_props value))
        (VObject id2 None (nodeProps_props value)).
Proof.
  destruct n as [| n]; [exact I |]. cbn [sim sim_call].
  split; [exact I |]. intros k. unfold nodeProps_props.
  destruct (decide (k = DATA_TEST_ATTR)) as [-> | Hne].
  - rewrite !lookup_insert_eq. cbn [sim_prop]. repeat split; auto with sim.
  - rewrite !lookup_insert_ne, !lookup_empty by congruence. exact I.
Qed.
#[local] Hint Resolve sim_nodeProps : sim.

Lemma sim_marker_props n value id1 id2 (base1 base2 : props_t) :
  (∀ k, sim_prop (sim n) (base1 !! k) (base2 !! k)) →
  ∀ k, sim_prop (sim n) (marker_props value id1 base1 !! k)
                        (marker_props value id2 base2 !! k).
Proof.
  intros Hbase k. rewrite !marker_props_lookup.
  repeat case_decide; [cbn [sim_prop]; repeat split; auto with sim .. | apply Hbase].
Qed.

Lemma sim_function_props n k :
  sim_prop (sim n) (function_props !! k) (function_props !! k).
Proof.
  unfold function_props.
  destruct (decide (k = "name")) as [-> | Hn].
  { rewrite lookup_insert_eq. cbn [sim_prop]. repeat split; auto with sim. }
  rewrite lookup_insert_ne by congruence.
  destruct (decide (k = "length")) as [-> | Hl].
  { rewrite lookup_insert_eq. cbn [sim_prop]. repeat split; auto with sim. }
  rewrite lookup_insert_ne, lookup_empty by congruence. exact I.
Qed.

Lemma sim_empty_props n (k : string) :
  sim_prop (sim n) ((∅ : props_t) !! k) ((∅ : props_t) !! k).
Proof. rewrite lookup_empty. exact I. Qed.

(** The combinators preserve determinism, depth by depth. *)
Lemma sim_simple n value s1 s2 :
  sim_res (sim n) (simple value s1) (simple value s2).
Proof.
  rewrite !simple_run. destruct n as [| n]; [exact I |].
  cbn [sim_res sim sim_call]. split; [exact I |].
  apply sim_marker_props, sim_empty_props.
Qed.

Lemma sim_complex n (nodes : gmap string Schema) value s1 s2 :
  (∀ k (child : Schema) path,
      nodes !! k = Some child →
      sim_comp (sim (pred n)) (child path) (child path)) →
  sim_res (sim n) (complex nodes value s1) (complex nodes value s2).
Proof.
  intros Hnodes. rewrite !complex_run. destruct n as [| n]; [exact I |].
  cbn [sim_res sim sim_call]. split; [exact I |].
  intros k. rewrite !complex_props_lookup.
  destruct (nodes !! k) as [child |] eqn:E.
  - cbn [sim_prop]. split; [| done]. by apply (Hnodes k).
  - apply sim_marker_props, sim_empty_props.
Qed.

Lemma sim_byKey n (schema : Schema) value s1 s2 :
  (∀ path, sim_comp (sim (pred n)) (schema path) (schema path)) →
  sim_res (sim n) (byKey schema value s1) (byKey schema value s2).
Proof.
  intros Hs. rewrite !byKey_run. destruct n as [| n]; [exact I |].
  cbn [sim_res sim sim_call]. split.
  - intros x. apply Hs.
  - apply sim_marker_props. intros k. apply sim_function_props.
Qed.

Lemma deterministic_simple : deterministic simple.
Proof. intros n value s1 s2. apply sim_simple. Qed.

Lemma deterministic_complex (nodes : gmap string Schema) :
  (∀ k (child : Schema), nodes !! k = Some child → deterministic child) →
  deterministic (complex nodes).
Proof.
  intros Hnodes n value s1 s2. apply sim_complex.
  intros k child path E. by apply (Hnodes k child E).
Qed.

Lemma deterministic_byKey (schema : Schema) :
  deterministic schema → deterministic (byKey schema).
Proof. intros Hs n value s1 s2. apply sim_byKey. intros path. apply Hs. Qed.

Lemma deterministic_traced tag (schema : Schema) :
  deterministic schema → deterministic (traced tag schema).
Proof. intros Hs n value s1 s2. apply Hs. Qed.

(** Every invocation of a built schema succeeds, creates two objects, calls
    no traced schema, and returns an object of a new identity. *)
Lemma built_fresh P schema value s :
  built P schema →
  ∃ m, schema value s = Ok m (allocated 2 s) ∧ identity m = Some (next_id s).
Proof.
  intros [| nodes _ | inner _].
  - eexists. split; [exact (simple_run value s) | reflexivity].
  - eexists. split; [exact (complex_run nodes value s) | reflexivity].
  - eexists. split; [exact (byKey_run inner value s) | reflexivity].
Qed.

Lemma built_silent P schema : built P schema → silent schema.
Proof.
  intros Hb value s. destruct (built_fresh P schema value s Hb) as (m & Hrun & _).
  by exists m, (allocated 2 s).
Qed.

(** The fundamental property: a schema built from the three combinators
    is deterministic. *)
Lemma built_deterministic P schema : built P schema → deterministic schema.
Proof.
  intros Hb n. revert schema Hb.
  induction n as [| n IH]; intros schema Hb value s1 s2.
  - destruct (built_fresh P schema value s1 Hb) as (m1 & -> & _).
    destruct (built_fresh P schema value s2 Hb) as (m2 & -> & _).
    exact I.
  - destruct Hb as [| nodes Hnodes | schema Hb].
    + apply sim_simple.
    + apply sim_complex. intros k child path E. apply IH. by apply (Hnodes k).
    + apply sim_byKey. intros path. by apply IH.
Qed.

Lemma deterministic_twice schema value s1 s2 m1 t1 m2 t2 :
  deterministic schema →
  schema value s1 = Ok m1 t1 → schema value s2 = Ok m2 t2 →
  structurally_equal m1 m2.
Proof.
  intros Hd H1 H2 n. specialize (Hd n value s1 s2).
  by rewrite H1, H2 in Hd.
Qed.

(** Reading a field of two structurally equal objects. *)
Lemma sim_Get n id1 c1 p1 id2 c2 p2 k :
  sim (S n) (VObject id1 c1 p1) (VObject id2 c2 p2) →
  sim_comp (sim n) (Get (VObject id1 c1 p1) k) (Get (VObject id2 c2 p2) k).
Proof.
  intros [_ Hp] s1 s2. specialize (Hp k). unfold Get.
  destruct (p1 !! k) as [[a w e c | g e c] |],
           (p2 !! k) as [[b w' e' c' | h e' c'] |]; cbn in Hp; try done.
  - by destruct Hp.
  - destruct Hp as [Hg _]. apply Hg.
  - apply sim_undefined.
Qed.

Lemma structurally_equal_Get m1 m2 k u1 u2 :
  is_Some (identity m1) → structurally_equal m1 m2 →
  ∃ r1 u1' r2 u2',
    Get m1 k u1 = Ok r1 u1' ∧ Get m2 k u2 = Ok r2 u2' ∧
    structurally_equal r1 r2.
Proof.
  intros [i Hi] Heq.
  destruct m1 as [| | | id1 c1 p1]; try discriminate Hi.
  pose proof (Heq 1) as H1.
  destruct m2 as [| | | id2 c2 p2]; try contradiction.
  assert (∀ n, sim_comp (sim n) (Get (VObject id1 c1 p1) k)
                                 (Get (VObject id2 c2 p2) k)) as Hg
    by (intros n; apply sim_Get, Heq).
  pose proof (Hg 0 u1 u2) as H0.
  destruct (Get (VObject id1 c1 p1) k u1) as [r1 u1' |] eqn:G1;
    [| contradiction].
  destruct (Get (VObject id2 c2 p2) k u2) as [r2 u2' |] eqn:G2;
    [| contradiction].
  exists r1, u1', r2, u2'. split; [done |]. split; [done |].
  intros n. specialize (Hg n u1 u2). by rewrite G1, G2 in Hg.
Qed.

(** Calling two structurally equal objects. *)
Lemma structurally_equal_Call m1 m2 x u1 u2 r1 u1' :
  structurally_equal m1 m2 → Call m1 x u1 = Ok r1 u1' →
  ∃ r2 u2', Call m2 x u2 = Ok r2 u2' ∧ structurally_equal r1 r2.
Proof.
  intros Heq Hc.
  destruct m1 as [| | | id1 [f |] p1]; try discriminate Hc.
  pose proof (Heq 1) as H1.
  destruct m2 as [| | | id2 [g |] p2]; try (by destruct H1).
  cbn [Call] in *.
  pose proof (proj1 (Heq 1) x u1 u2) as H0. rewrite Hc in H0.
  destruct (g x u2) as [r2 u2' |] eqn:G; [| contradiction].
  exists r2, u2'. split; [reflexivity |].
  intros n. pose proof (proj1 (Heq (S n)) x u1 u2) as Hn.
  by rewrite Hc, G in Hn.
Qed.

(** Structural equality is equality on strings. *)
Lemma structurally_equal_string x r :
  structurally_equal (VString x) r → r = VString x.
Proof.
  intros Heq. specialize (Heq 1). destruct r; cbn in Heq; try contradiction.
  by subst.
Qed.

Lemma structurally_equal_own m1 m2 k :
  is_Some (identity m1) → structurally_equal m1 m2 →
  is_Some (own_props m1 !! k) ↔ is_Some (own_props m2 !! k).
Proof.
  intros [i Hi] Heq.
  destruct m1 as [| | | id1 c1 p1]; try discriminate Hi.
  pose proof (Heq 1) as H1.
  destruct m2 as [| | | id2 c2 p2]; try contradiction.
  destruct H1 as [_ Hp]. specialize (Hp k). cbn [own_props].
  destruct (p1 !! k) as [[? ? ? ? | ? ? ?] |],
           (p2 !! k) as [[? ? ? ? | ? ? ?] |]; cbn in Hp;
    try contradiction; split; intros [? ?]; by (eexists || discriminate).
Qed.

Lemma twice_alike_fresh (schema : Schema) :
  deterministic schema →
  (∀ value s, ∃ m,
      schema value s = Ok m (allocated 2 s) ∧ identity m = Some (next_id s)) →
  twice_alike schema.
Proof.
  intros Hd Hf value s.
  destruct (Hf value s) as (m1 & H1 & I1).
  destruct (Hf value (allocated 2 s)) as (m2 & H2 & I2).
  exists m1, (allocated 2 s), m2, (allocated 2 (allocated 2 s)).
  assert (structurally_equal m1 m2) as Heq
    by exact (deterministic_twice schema _ _ _ _ _ _ _ Hd H1 H2).
  split; [exact H1 |]. split; [exact H2 |]. split; [| split; [exact Heq |]].
  - rewrite I1, I2. cbn. intros [= Hid]. lia.
  - split; [| split].
    + intros k. apply structurally_equal_own; [by rewrite I1 | exact Heq].
    + intros k u1 u2 _.
      apply structurally_equal_Get; [by rewrite I1 | exact Heq].
    + intros x u1 u2 r1 u1'. by apply structurally_equal_Call.
Qed.

Lemma marker_fields_alike id1 c1 i1 b1 id2 c2 i2 b2 value k u1 u2 :
  reserved k = true →
  ∃ r1 r2,
    Get (VObject id1 c1 (marker_props value i1 b1)) k u1 = Ok r1 u1 ∧
    Get (VObject id2 c2 (marker_props value i2 b2)) k u2 = Ok r2 u2 ∧
    structurally_equal r1 r2.
Proof.
  intros Hr. apply reserved_spec in Hr as [-> | [-> | ->]].
  - do 2 eexists. rewrite !Get_marker_value.
    split; [done |]. split; [done |]. intros n. apply sim_string.
  - do 2 eexists. rewrite !Get_marker_selector.
    split; [done |]. split; [done |]. intros n. apply sim_string.
  - do 2 eexists. rewrite !Get_marker_nodeProps.
    split; [done |]. split; [done |]. intros n. apply sim_nodeProps.
Qed.

(** ** Splitting a path *)

Lemma split_path_cons p : ∃ seg segs, split_path p = seg :: segs.
Proof.
  induction p as [| c p (seg & segs & IH)]; cbn [split_path]; [by eexists _, _ |].
  destruct (Ascii.eqb c "/"); [by eexists _, _ |].
  rewrite IH. by eexists _, _.
Qed.

Lemma split_path_app a b :
  split_path (a +:+ "/" +:+ b) = split_path a ++ split_path b.
Proof.
  induction a as [| c a IH].
  - reflexivity.
  - change (String c a +:+ "/" +:+ b) with (String c (a +:+ "/" +:+ b)).
    cbn [split_path]. rewrite IH.
    destruct (Ascii.eqb c "/"); [reflexivity |].
    destruct (split_path_cons a) as (seg & segs & ->). reflexivity.
Qed.

Lemma split_path_segment k : no_separator k = true → split_path k = [k].
Proof.
  induction k as [| c k IH]; [reflexivity |].
  cbn [no_separator split_path]. intros H.
  apply andb_prop in H as [Hc Hk].
  apply negb_true_iff in Hc. rewrite Hc, (IH Hk). reflexivity.
Qed.

(** ** Keyed addressing *)

Lemma append_inj_r (p a b : string) : p +:+ a = p +:+ b → a = b.
Proof.
  induction p as [| c p IH]; cbn; [done |]. intros [= H]. by apply IH.
Qed.

Lemma append_assoc (a b c : string) : a +:+ b +:+ c = (a +:+ b) +:+ c.
Proof.
  induction a as [| x a IH]; [reflexivity |].
  change (String x (a +:+ b +:+ c) = String x ((a +:+ b) +:+ c)).
  by rewrite IH.
Qed.

Lemma Call_container id schema value props x u :
  Call (VObject id (Some (λ key : Key, schema (value +:+ "/" +:+ stringify key)))
          props) x u =
  schema (value +:+ "/" +:+ stringify x) u.
Proof. reflexivity. Qed.

Lemma has_value_inj m x y : has_value m x → has_value m y → x = y.
Proof.
  intros Hx Hy. specialize (Hx (mkState 0 [])). specialize (Hy (mkState 0 [])).
  congruence.
Qed.

Lemma keyed_values_prefix (schema : Schema) value x1 x2 s :
  keeps_value schema → stringify x1 ≠ stringify x2 →
  ∃ c t m1 t1 m2 t2,
    byKey schema value s = Ok c t ∧
    Call c x1 t = Ok m1 t1 ∧ Call c x2 t1 = Ok m2 t2 ∧
    has_value m1 (value +:+ "/" +:+ stringify x1) ∧
    has_value m2 (value +:+ "/" +:+ stringify x2) ∧
    value +:+ "/" +:+ stringify x1 ≠ value +:+ "/" +:+ stringify x2.
Proof.
  intros Hk Hne.
  destruct (Hk (value +:+ "/" +:+ stringify x1) (allocated 2 s))
    as (m1 & t1 & Hc1 & Hv1).
  destruct (Hk (value +:+ "/" +:+ stringify x2) t1)
    as (m2 & t2 & Hc2 & Hv2).
  eexists _, _, m1, t1, m2, t2.
  split; [apply byKey_run |].
  split; [exact Hc1 |]. split; [exact Hc2 |].
  split; [exact Hv1 |]. split; [exact Hv2 |].
  intros Heq. apply Hne.
  change (value +:+ "/" +:+ stringify x1)
    with (value +:+ ("/" +:+ stringify x1)) in Heq.
  apply append_inj_r in Heq. by apply (append_inj_r "/").
Qed.

(** C3, as stated, fails in its second part in two ways.  When the
    wrapped schema is a composite declaring the key [value], the markers
    for the keys [1] and [2] show no string under [value].  And for the
    keys [a/b] and [c/b], which contain the separator, the markers of
    [simple] have the values [items/a/b] and [items/c/b]: the same final
    segment, and a different one before it. *)
Lemma keyed_addressing_counterexample :
  ¬ keyed_values_law (complex {[ "value" := simple ]}) "c"
      (KString "1") (KString "2") ∧
  ¬ keyed_values_law simple "items" (KString "a/b") (KString "c/b").
Proof.
  split.
  - intros H.
    destruct (H ltac:(discriminate) (mkState 0 []))
      as (c & t & m1 & t1 & m2 & t2 & y1 & y2 & Hrun & Hc1 & _ & Hv1 & _).
    rewrite byKey_run in Hrun. injection Hrun as <- <-.
    rewrite Call_container, complex_run in Hc1. injection Hc1 as <- <-.
    specialize (Hv1 (mkState 0 [])). unfold has_value in Hv1.
    rewrite (Get_declared _ _ _ _ "value" simple) in Hv1 by reflexivity.
    rewrite simple_run in Hv1. discriminate Hv1.
  - intros H.
    destruct (H ltac:(discriminate) (mkState 0 []))
      as (c & t & m1 & t1 & m2 & t2 & y1 & y2 & Hrun & Hc1 & Hc2 & Hv1 & Hv2
          & _ & init & l1 & l2 & Hs1 & Hs2 & Hl).
    rewrite byKey_run in Hrun. injection Hrun as <- <-.
    rewrite Call_container, simple_run in Hc1. injection Hc1 as <- <-.
    rewrite Call_container, simple_run in Hc2. injection Hc2 as <- <-.
    assert (y1 = "items/a/b") as ->.
    { symmetry. eapply has_value_inj; [| exact Hv1].
      intros u. apply Get_marker_value. }
    assert (y2 = "items/c/b") as ->.
    { symmetry. eapply has_value_inj; [| exact Hv2].
      intros u. apply Get_marker_value. }
    change (split_path "items/a/b") with (["items"; "a"] ++ ["b"]) in Hs1.
    change (split_path "items/c/b") with (["items"; "c"] ++ ["b"]) in Hs2.
    apply app_inj_tail in Hs1 as [_ <-]. apply app_inj_tail in Hs2 as [_ <-].
    by apply Hl.
Qed.

(** C3, amended.  Calling the container [byKey schema value] with a key
    [x] runs [schema] on [value/stringify x], for every schema; the
    container is a marker for [value] whose three fields read as those of
    [simple value]; and for a wrapped schema that keeps its path under
    [value] (as [simple], every [byKey] schema and every composite not
    declaring the key [value] do), two keys that stringify differently
    give markers with the values [value/stringify x1] and
    [value/stringify x2], which differ, and which differ only in the final
    path segment when neither stringified key contains the separator. *)
Theorem keyed_addressing :
  (∀ schema value s, ∃ c,
      byKey schema value s = Ok c (allocated 2 s) ∧
      (∀ x u, Call c x u = schema (value +:+ "/" +:+ stringify x) u) ∧
      has_value c value ∧
      ∀ k s' m t' u u',
        reserved k = true → simple value s' = Ok m t' →
        ∃ r r', Get c k u = Ok r u ∧ Get m k u' = Ok r' u' ∧
                structurally_equal r r') ∧
  (∀ (schema : Schema) value x1 x2 s,
      keeps_value schema → stringify x1 ≠ stringify x2 →
      ∃ c t m1 t1 m2 t2,
        byKey schema value s = Ok c t ∧
        Call c x1 t = Ok m1 t1 ∧ Call c x2 t1 = Ok m2 t2 ∧
        has_value m1 (value +:+ "/" +:+ stringify x1) ∧
        has_value m2 (value +:+ "/" +:+ stringify x2) ∧
        value +:+ "/" +:+ stringify x1 ≠ value +:+ "/" +:+ stringify x2) ∧
  (∀ schema value x1 x2,
      keeps_value schema →
      no_separator (stringify x1) = true →
      no_separator (stringify x2) = true →
      keyed_values_law schema value x1 x2) ∧
  (∀ s, ∃ c t m u,
      byKey simple "items" s = Ok c t ∧ has_value c "items" ∧
      Call c (KNumber 2 I) t = Ok m u ∧ has_value m "items/2").
Proof.
  split; [| split; [| split]].
  - intros schema value s. eexists.
    split; [apply byKey_run |]. split; [reflexivity |].
    split; [intros u; apply Get_marker_value |].
    intros k s' m t' u u' Hr Hm.
    rewrite simple_run in Hm. injection Hm as <- <-.
    by apply marker_fields_alike.
  - intros schema value x1 x2 s Hk Hne. by apply keyed_values_prefix.
  - intros schema value x1 x2 Hk Hs1 Hs2 Hne s.
    destruct (keyed_values_prefix schema value x1 x2 s Hk Hne)
      as (c & t & m1 & t1 & m2 & t2 & Hrun & Hc1 & Hc2 & Hv1 & Hv2 & Hy).
    eexists c, t, m1, t1, m2, t2, _, _.
    split; [exact Hrun |]. split; [exact Hc1 |]. split; [exact Hc2 |].
    split; [exact Hv1 |]. split; [exact Hv2 |]. split; [exact Hy |].
    exists (split_path value), (stringify x1), (stringify x2).
    rewrite !split_path_app, (split_path_segment _ Hs1),
      (split_path_segment _ Hs2).
    by repeat split.
  - intros s. do 4 eexists.
    split; [apply byKey_run |]. split; [intros u; apply Get_marker_value |].
    split; [apply simple_run |]. intros u.
    change "items/2" with ("items" +:+ "/" +:+ "2").
    replace "2" with (stringify (KNumber 2 I)) by (vm_compute; reflexivity).
    apply Get_marker_value.
Qed.

Lemma keyed_addressing_witness :
  (keeps_value simple ∧
   stringify (KNumber 1 I) ≠ stringify (KString "2") ∧
   no_separator (stringify (KNumber 1 I)) = true ∧
   no_separator (stringify (KString "2")) = true ∧
   reserved "nodeProps" = true) ∧
  (∃ c m t' r r',
      byKey simple "items" (mkState 0 []) = Ok c (allocated 2 (mkState 0 [])) ∧
      simple "items" (mkState 4 []) = Ok m t' ∧
      Get c "nodeProps" (mkState 6 []) = Ok r (mkState 6 []) ∧
      Get m "nodeProps" (mkState 6 []) = Ok r' (mkState 6 []) ∧
      structurally_equal r r') ∧
  (∃ c t m1 t1 m2 t2,
      byKey simple "items" (mkState 0 []) = Ok c t ∧
      Call c (KNumber 1 I) t = Ok m1 t1 ∧
      Call c (KString "2") t1 = Ok m2 t2 ∧
      has_value m1 ("items" +:+ "/" +:+ stringify (KNumber 1 I)) ∧
      has_value m2 ("items" +:+ "/" +:+ stringify (KString "2"))) ∧
  ∀ s, ∃ c t m1 t1 m2 t2 y1 y2,
    byKey simple "items" s = Ok c t ∧
    Call c (KNumber 1 I) t = Ok m1 t1 ∧ Call c (KString "2") t1 = Ok m2 t2 ∧
    has_value m1 y1 ∧ has_value m2 y2 ∧ y1 ≠ y2 ∧
    ∃ init last1 last2,
      split_path y1 = init ++ [last1] ∧ split_path y2 = init ++ [last2] ∧
      last1 ≠ last2.
Proof.
  assert (stringify (KNumber 1 I) ≠ stringify (KString "2")) as Hne
    by (vm_compute; discriminate).
  assert (no_separator (stringify (KNumber 1 I)) = true) as Hs1
    by (vm_compute; reflexivity).
  assert (no_separator (stringify (KString "2")) = true) as Hs2
    by reflexivity.
  destruct keyed_addressing as (K1 & K2 & K3 & _).
  split; [split; [exact keeps_value_simple |];
          split; [exact Hne |]; split; [exact Hs1 |];
          split; [exact Hs2 | reflexivity] |].
  split; [| split].
  - destruct (K1 simple "items" (mkState 0 [])) as (c & Hc & _ & _ & Hsame).
    destruct (Hsame "nodeProps" (mkState 4 []) _ _ (mkState 6 []) (mkState 6 [])
                eq_refl (simple_run "items" (mkState 4 [])))
      as (r & r' & G & G' & Heq).
    eexists c, _, _, r, r'. split; [exact Hc |].
    split; [apply simple_run |]. split; [exact G |].
    split; [exact G' | exact Heq].
  - destruct (K2 simple "items" (KNumber 1 I) (KString "2") (mkState 0 [])
                keeps_value_simple Hne)
      as (c & t & m1 & t1 & m2 & t2 & Hrun & Hc1 & Hc2 & Hv1 & Hv2 & _).
    exists c, t, m1, t1, m2, t2.
    split; [exact Hrun |]. split; [exact Hc1 |]. split; [exact Hc2 |].
    split; [exact Hv1 | exact Hv2].
  - exact (K3 simple "items" (KNumber 1 I) (KString "2")
             keeps_value_simple Hs1 Hs2 Hne).
Defined.

(** ** Purity *)


Lemma built_example :
  built any_key (complex {[ "items" := byKey simple ]}).
Proof.
  apply built_complex. intros k child Hk.
  apply lookup_singleton_Some in Hk as [<- <-].
  split; [exact I |]. apply built_byKey, built_simple.
Defined.

Lemma children_example (k : string) (child : Schema) :
  ({[ "items" := byKey simple ]} : gmap string Schema) !! k = Some child →
  deterministic child.
Proof.
  intros Hk. apply lookup_singleton_Some in Hk as [<- <-].
  apply deterministic_byKey, deterministic_simple.
Defined.


(** ** Laziness *)

Lemma traced_run tag (schema : Schema) value u :
  traced tag schema value u =
  schema value (mkState (next_id u) (trace u ++ [(tag, value)])).
Proof. reflexivity. Qed.

Lemma invocations_snoc tag arg n n' tr :
  invocations tag (mkState n (tr ++ [(tag, arg)])) =
  S (invocations tag (mkState n' tr)).
Proof.
  unfold invocations. cbn [trace].
  rewrite filter_app, length_app, filter_cons_True by reflexivity.
  rewrite filter_nil. cbn. lia.
Qed.

Lemma invocations_trace tag s t :
  trace t = trace s → invocations tag t = invocations tag s.
Proof. unfold invocations. by intros ->. Qed.

Lemma traced_once tag (inner : Schema) value u :
  silent inner →
  ∃ m u', traced tag inner value u = Ok m u' ∧
          inner value (mkState (next_id u) (trace u ++ [(tag, value)])) = Ok m u' ∧
          trace u' = trace u ++ [(tag, value)] ∧
          invocations tag u' = S (invocations tag u).
Proof.
  intros Hs.
  destruct (Hs value (mkState (next_id u) (trace u ++ [(tag, value)])))
    as (m & u' & Hrun & Htr).
  exists m, u'. rewrite traced_run. split; [exact Hrun |].
  split; [exact Hrun |]. split; [exact Htr |].
  rewrite (invocations_trace tag _ _ Htr).
  rewrite (invocations_snoc tag value _ (next_id u)). by destruct u.
Qed.

(** C4.  Invoking [complex nodes] runs no child schema: whatever the
    children, it returns with the trace of invocations unchanged.  Reading
    a declared field is one run of that child's schema on [value/key],
    each time the field is read: a child traced under [tag] is recorded
    once per read, nothing is kept from one read to the next, and two
    reads give structurally equal markers (the child being a schema, that
    is deterministic), of different identity when the child is built from
    the combinators. *)
Theorem laziness :
  (∀ (nodes : gmap string Schema) value s, ∃ o t,
      complex nodes value s = Ok o t ∧ trace t = trace s ∧
      ∀ tag, invocations tag t = invocations tag s) ∧
  (∀ (nodes : gmap string Schema) k (child : Schema) value s o t,
      complex nodes value s = Ok o t → nodes !! k = Some child →
      ∀ u, Get o k u = child (value +:+ "/" +:+ k) u) ∧
  (∀ (nodes : gmap string Schema) k tag (inner : Schema) value s o t,
      complex nodes value s = Ok o t →
      nodes !! k = Some (traced tag inner) → silent inner →
      ∀ u, ∃ m1 u1 m2 u2,
        Get o k u = Ok m1 u1 ∧
        trace u1 = trace u ++ [(tag, value +:+ "/" +:+ k)] ∧
        invocations tag u1 = 1 + invocations tag u ∧
        Get o k u1 = Ok m2 u2 ∧
        trace u2 = trace u1 ++ [(tag, value +:+ "/" +:+ k)] ∧
        invocations tag u2 = 2 + invocations tag u) ∧
  (∀ (nodes : gmap string Schema) k (child : Schema) value s o t,
      complex nodes value s = Ok o t → nodes !! k = Some child →
      deterministic child →
      ∀ u, ∃ m1 u1 m2 u2,
        Get o k u = Ok m1 u1 ∧ Get o k u1 = Ok m2 u2 ∧
        structurally_equal m1 m2 ∧
        (built any_key child → identity m1 ≠ identity m2)).
Proof.
  split; [| split; [| split]].
  - intros nodes value s. eexists _, (allocated 2 s).
    split; [apply complex_run |]. split; [reflexivity |].
    intros tag. by apply invocations_trace.
  - intros nodes k child value s o t Hrun E u.
    rewrite complex_run in Hrun. injection Hrun as <- <-.
    by apply Get_declared.
  - intros nodes k tag inner value s o t Hrun E Hs u.
    rewrite complex_run in Hrun. injection Hrun as <- <-.
    destruct (traced_once tag inner (value +:+ "/" +:+ k) u Hs)
      as (m1 & u1 & H1 & _ & Ht1 & Hi1).
    destruct (traced_once tag inner (value +:+ "/" +:+ k) u1 Hs)
      as (m2 & u2 & H2 & _ & Ht2 & Hi2).
    exists m1, u1, m2, u2.
    rewrite !(Get_declared _ _ _ _ _ _ _ E).
    split; [exact H1 |]. split; [exact Ht1 |]. split; [exact Hi1 |].
    split; [exact H2 |]. split; [exact Ht2 | lia].
  - intros nodes k child value s o t Hrun E Hd u.
    rewrite complex_run in Hrun. injection Hrun as <- <-.
    pose proof (Hd 0 (value +:+ "/" +:+ k) u u) as H1.
    destruct (child (value +:+ "/" +:+ k) u) as [m1 u1 |] eqn:E1;
      [| contradiction].
    pose proof (Hd 0 (value +:+ "/" +:+ k) u1 u1) as H2.
    destruct (child (value +:+ "/" +:+ k) u1) as [m2 u2 |] eqn:E2;
      [| contradiction].
    exists m1, u1, m2, u2.
    rewrite !(Get_declared _ _ _ _ _ _ _ E).
    split; [exact E1 |]. split; [exact E2 |]. split.
    + exact (deterministic_twice child _ _ _ _ _ _ _ Hd E1 E2).
    + intros Hb.
      destruct (built_fresh _ child (value +:+ "/" +:+ k) u Hb)
        as (m1' & H1' & I1).
      rewrite E1 in H1'. injection H1' as <- ->.
      destruct (built_fresh _ child (value +:+ "/" +:+ k) (allocated 2 u) Hb)
        as (m2' & H2' & I2).
      rewrite E2 in H2'. injection H2' as <- _.
      rewrite I1, I2. cbn. intros [= Hid]. lia.
Qed.

Lemma silent_simple : silent simple.
Proof. exact (built_silent any_key simple (built_simple any_key)). Defined.

Lemma laziness_witness :
  (silent simple ∧ deterministic (traced "stub" simple) ∧
   built any_key simple ∧
   ({[ "header" := traced "stub" simple ]} : gmap string Schema) !! "header"
     = Some (traced "stub" simple)) ∧
  ∃ o t,
    complex {[ "header" := traced "stub" simple ]} "root" (mkState 0 [])
      = Ok o t ∧
    invocations "stub" t = 0 ∧
    (∀ u, Get o "header" u = traced "stub" simple "root/header" u) ∧
    (∃ m1 u1 m2 u2,
        Get o "header" t = Ok m1 u1 ∧ invocations "stub" u1 = 1 ∧
        Get o "header" u1 = Ok m2 u2 ∧ invocations "stub" u2 = 2) ∧
    (∃ m1 u1 m2 u2,
        Get o "header" t = Ok m1 u1 ∧ Get o "header" u1 = Ok m2 u2 ∧
        structurally_equal m1 m2).
Proof.
  destruct laziness as (L1 & L2 & L3 & L4).
  assert (deterministic (traced "stub" simple)) as Hd
    by exact (deterministic_traced "stub" simple deterministic_simple).
  split; [split; [exact silent_simple |];
          split; [exact Hd |];
          split; [exact (built_simple any_key) | reflexivity] |].
  destruct (L1 {[ "header" := traced "stub" simple ]} "root" (mkState 0 []))
    as (o & t & Hrun & Htr & Hinv).
  exists o, t. split; [exact Hrun |]. split; [by rewrite Hinv |].
  split; [| split].
  - apply (L2 _ "header" (traced "stub" simple) "root" _ o t Hrun).
    reflexivity.
  - destruct (L3 {[ "header" := traced "stub" simple ]} "header" "stub" simple
                "root" _ o t Hrun eq_refl silent_simple t)
      as (m1 & u1 & m2 & u2 & G1 & _ & I1 & G2 & _ & I2).
    exists m1, u1, m2, u2. rewrite I1, I2, Hinv.
    split; [exact G1 |]. split; [reflexivity |].
    split; [exact G2 | reflexivity].
  - destruct (L4 {[ "header" := traced "stub" simple ]} "header"
                (traced "stub" simple) "root" _ o t Hrun eq_refl Hd t)
      as (m1 & u1 & m2 & u2 & G1 & G2 & Heq & _).
    exists m1, u1, m2, u2.
    split; [exact G1 |]. split; [exact G2 | exact Heq].
Defined.

(** ** The keyed container *)

Lemma function_props_lookup k :
  function_props !! k =
  if decide (k = "name")
  then Some (Data (VString "result") false false true)
  else if decide (k = "length")
  then Some (Data (VNumber 1) false false true)
  else None.
Proof.
  unfold function_props.
  repeat (case_decide; [subst k; by simplify_map_eq |]).
  by rewrite !lookup_insert_ne, lookup_empty by congruence.
Qed.

Lemma container_enumerable id call value id' k :
  enumerable_key (VObject id call (marker_props value id' function_props)) k
  ↔ reserved k = true.
Proof.
  unfold enumerable_key. cbn [own_props]. split.
  - intros (p & Hp & He). destruct (reserved k) eqn:Hr; [reflexivity |].
    rewrite marker_props_other, function_props_lookup in Hp by assumption.
    repeat case_decide; simplify_eq; discriminate He.
  - intros Hr.
    destruct (marker_props_reserved value id' function_props k Hr) as [v Hv].
    by exists (Data v true true true).
Qed.

Lemma container_own id call value id' k :
  is_Some (own_props (VObject id call (marker_props value id' function_props))
             !! k)
  ↔ reserved k = true ∨ k = "length" ∨ k = "name".
Proof.
  cbn [own_props]. destruct (reserved k) eqn:Hr.
  - destruct (marker_props_reserved value id' function_props k Hr) as [v Hv].
    rewrite Hv. split; [by left | by eexists].
  - rewrite marker_props_other, function_props_lookup by assumption.
    repeat case_decide; subst; split;
      try (intros _; by eexists); try tauto; try (intros [? ?]; discriminate).
    intros [? | [? | ?]]; congruence.
Qed.

(** C10.  The container [byKey schema value] is a function object whose
    own properties are the three marker fields, the only enumerable ones,
    and the intrinsic [length] and [name] of a function; they are the same
    for every wrapped schema, and the three fields read as those of
    [simple value] do.  The wrapped schema is not run when the container
    is built nor when a marker field is read: both leave the trace as it
    was.  A call with a key is one run of the wrapped schema on
    [value/stringify key]. *)
Theorem keyed_container :
  (∀ (schema : Schema) value s, ∃ c,
      byKey schema value s = Ok c (allocated 2 s) ∧
      (∀ k, enumerable_key c k ↔ reserved k = true) ∧
      (∀ k, is_Some (own_props c !! k)
            ↔ reserved k = true ∨ k = "length" ∨ k = "name") ∧
      (∀ k s' m t' u u',
          reserved k = true → simple value s' = Ok m t' →
          ∃ r r', Get c k u = Ok r u ∧ Get m k u' = Ok r' u' ∧
                  structurally_equal r r') ∧
      (∀ schema' : Schema, ∃ c',
          byKey schema' value s = Ok c' (allocated 2 s) ∧
          own_props c' = own_props c) ∧
      (∀ x u, Call c x u = schema (value +:+ "/" +:+ stringify x) u)) ∧
  (∀ tag (inner : Schema) value x s,
      silent inner →
      ∃ c t m u,
        byKey (traced tag inner) value s = Ok c t ∧
        invocations tag t = invocations tag s ∧
        Call c x t = Ok m u ∧
        trace u = trace t ++ [(tag, value +:+ "/" +:+ stringify x)] ∧
        invocations tag u = 1 + invocations tag s).
Proof.
  split.
  - intros schema value s. eexists.
    split; [apply byKey_run |].
    split; [intros k; apply container_enumerable |].
    split; [intros k; apply container_own |].
    split.
    { intros k s' m t' u u' Hr Hm.
      rewrite simple_run in Hm. injection Hm as <- <-.
      by apply marker_fields_alike. }
    split; [| reflexivity].
    intros schema'. eexists. split; [apply byKey_run | reflexivity].
  - intros tag inner value x s Hs.
    destruct (traced_once tag inner (value +:+ "/" +:+ stringify x)
                (allocated 2 s) Hs) as (m & u & Hrun & _ & Htr & Hinv).
    eexists _, (allocated 2 s), m, u.
    split; [apply byKey_run |]. split; [by apply invocations_trace |].
    split; [exact Hrun |]. split; [exact Htr |].
    rewrite Hinv. reflexivity.
Qed.

Lemma keyed_container_witness :
  (silent simple ∧ reserved "selector" = true) ∧
  (∃ c,
      byKey (complex {[ "title" := simple ]}) "items" (mkState 0 []) =
        Ok c (allocated 2 (mkState 0 [])) ∧
      (∃ m t' r r',
          simple "items" (mkState 5 []) = Ok m t' ∧
          Get c "selector" (mkState 9 []) = Ok r (mkState 9 []) ∧
          Get m "selector" (mkState 9 []) = Ok r' (mkState 9 []) ∧
          structurally_equal r r') ∧
      ¬ is_Some (own_props c !! "title")) ∧
  ∃ c t m u,
    byKey (traced "item" simple) "items" (mkState 0 []) = Ok c t ∧
    invocations "item" t = invocations "item" (mkState 0 []) ∧
    Call c (KString "3") t = Ok m u ∧
    trace u = trace t ++ [("item", "items" +:+ "/" +:+ stringify (KString "3"))] ∧
    invocations "item" u = 1 + invocations "item" (mkState 0 []).
Proof.
  split; [split; [exact silent_simple | reflexivity] |]. split.
  - destruct (proj1 keyed_container (complex {[ "title" := simple ]}) "items"
                (mkState 0 []))
      as (c & Hc & _ & Hown & Hsame & _).
    exists c. split; [exact Hc |]. split.
    + destruct (Hsame "selector" (mkState 5 []) _ _ (mkState 9 [])
                  (mkState 9 []) eq_refl (simple_run "items" (mkState 5 [])))
        as (r & r' & G & G' & Heq).
      eexists _, _, r, r'. split; [apply simple_run |].
      split; [exact G |]. split; [exact G' | exact Heq].
    + rewrite Hown. intros [H | [H | H]]; discriminate H.
  - exact (proj2 keyed_container "item" simple "items" (KString "3")
             (mkState 0 []) silent_simple).
Defined.

(** ** Path segments *)

Lemma path_ok_extend p k :
  path_ok p → segment_ok k → path_ok (p +:+ "/" +:+ k).
Proof.
  unfold path_ok. intros Hp [Hne Hsep].
  rewrite split_path_app, (split_path_segment k Hsep).
  rewrite elem_of_app, list_elem_of_singleton. intros [? | ?]; [tauto | congruence].
Qed.

(** Every reachable marker is the result of a built schema on a
    well-formed path. *)
Lemma produced_built (P : string → Prop) (schema : Schema) value m :
  (∀ k, P k → segment_ok k) →
  built P schema → path_ok value → produced schema value m →
  ∃ (schema' : Schema) p s t,
    built P schema' ∧ path_ok p ∧ schema' p s = Ok m t.
Proof.
  intros HP Hb Hv Hm.
  induction Hm as [s m t Hrun
                  | o k get e c s m t Ho IH Hk Hget
                  | o x s m t Ho IH Hx Hcall].
  - by exists schema, value, s, t.
  - destruct IH as (schema' & p & s' & t' & Hb' & Hp & Hrun).
    destruct Hb' as [| nodes Hnodes | inner Hinner].
    + rewrite simple_run in Hrun. injection Hrun as <- <-.
      cbn [own_props] in Hk. rewrite marker_props_lookup in Hk.
      repeat case_decide; discriminate Hk.
    + rewrite complex_run in Hrun. injection Hrun as <- <-.
      cbn [own_props] in Hk. rewrite complex_props_lookup in Hk.
      destruct (nodes !! k) as [child |] eqn:E.
      * injection Hk as <- _ _.
        destruct (Hnodes k child E) as [Pk Hchild].
        exists child, (p +:+ "/" +:+ k), s, t.
        split; [exact Hchild |]. split; [| exact Hget].
        apply path_ok_extend; auto.
      * rewrite marker_props_lookup in Hk.
        repeat case_decide; discriminate Hk.
    + rewrite byKey_run in Hrun. injection Hrun as <- <-.
      cbn [own_props] in Hk.
      rewrite marker_props_lookup, function_props_lookup in Hk.
      repeat case_decide; discriminate Hk.
  - destruct IH as (schema' & p & s' & t' & Hb' & Hp & Hrun).
    destruct Hb' as [| nodes Hnodes | inner Hinner].
    + rewrite simple_run in Hrun. injection Hrun as <- <-. discriminate Hcall.
    + rewrite complex_run in Hrun. injection Hrun as <- <-. discriminate Hcall.
    + rewrite byKey_run in Hrun. injection Hrun as <- <-.
      rewrite Call_container in Hcall.
      exists inner, (p +:+ "/" +:+ stringify x), s, t.
      split; [exact Hinner |]. split; [| exact Hcall].
      by apply path_ok_extend.
Qed.

Lemma built_keeps_value (P : string → Prop) (schema : Schema) :
  (∀ k, P k → k ≠ "value") → built P schema → keeps_value schema.
Proof.
  intros HP [| nodes Hnodes | inner _].
  - exact keeps_value_simple.
  - apply keeps_value_complex.
    destruct (nodes !! "value") as [child |] eqn:E; [| reflexivity].
    destruct (Hnodes _ _ E) as [Pk _]. by apply HP in Pk.
  - apply keeps_value_byKey.
Qed.

Lemma built_value_example :
  built segment_ok (complex {[ "value" := simple ]}).
Proof.
  apply built_complex. intros k child Hk.
  apply lookup_singleton_Some in Hk as [<- <-].
  split; [by split |]. apply built_simple.
Qed.

(** C9, as stated, fails for a composite that declares the (non-empty,
    separator-free) key [value]: its marker shows the child marker under
    [value], not a path. *)
Lemma path_segments_counterexample :
  built segment_ok (complex {[ "value" := simple ]}) ∧ path_ok "r" ∧
  ¬ segments_law (complex {[ "value" := simple ]}) "r".
Proof.
  split; [exact built_value_example |]. split.
  - unfold path_ok. cbn. rewrite list_elem_of_singleton. discriminate.
  - intros H.
    destruct (H _ (produced_root _ _ _ _ _ (complex_run _ "r" (mkState 0 []))))
      as (p & Hp & _).
    specialize (Hp (mkState 0 [])). unfold has_value in Hp.
    rewrite (Get_declared _ _ _ _ "value" simple) in Hp by reflexivity.
    rewrite simple_run in Hp. discriminate Hp.
Qed.

(** C9, amended.  For a schema built from the three combinators whose
    declared keys are non-empty, free of the separator and different from
    [value], and a root value without empty segment, every marker
    reachable through declared fields and well-formed keys has a value
    whose segments, split at the separator, are all non-empty. *)
Theorem path_segments (schema : Schema) (value : string) :
  built wf_key schema → path_ok value → segments_law schema value.
Proof.
  intros Hb Hv m Hm.
  destruct (produced_built wf_key schema value m) as
    (schema' & p & s & t & Hb' & Hp & Hrun); try assumption.
  { by intros k [Hk _]. }
  assert (keeps_value schema') as Hk.
  { apply (built_keeps_value wf_key); [| exact Hb']. by intros k [_ Hk]. }
  destruct (Hk p s) as (m' & t' & Hrun' & Hval).
  rewrite Hrun in Hrun'. injection Hrun' as <- <-.
  by exists p.
Qed.

Lemma built_wf_example :
  built wf_key (complex {[ "items" := byKey simple ]}).
Proof.
  apply built_complex. intros k child Hk.
  apply lookup_singleton_Some in Hk as [<- <-].
  split; [| apply built_byKey, built_simple].
  split; [split; [discriminate | reflexivity] | discriminate].
Defined.

Lemma path_ok_root : path_ok "root".
Proof.
  unfold path_ok. cbn. rewrite list_elem_of_singleton. discriminate.
Defined.

Lemma path_segments_witness :
  (built wf_key (complex {[ "items" := byKey simple ]}) ∧ path_ok "root") ∧
  segments_law (complex {[ "items" := byKey simple ]}) "root".
Proof.
  split; [split; [exact built_wf_example | exact path_ok_root] |].
  exact (path_segments (complex {[ "items" := byKey simple ]}) "root"
           built_wf_example path_ok_root).
Defined.

(** ** The scenario of the documentation *)

Example footer_brands_item :
  (let* root :=
     complex {[ "header" := simple;
                "footer" := complex {[ "brands" :=
                              complex {[ "items" := byKey simple ]} ]} ]}
       "root" in
   let* footer := Get root "footer" in
   let* brands := Get footer "brands" in
   let* items := Get brands "items" in
   let* item := Call items (KString "3") in
   Get item "value") (mkState 0 [])
  = Ok (VString "root/footer/brands/items/3") (mkState 10 []).
Proof. vm_compute. reflexivity. Qed.

(** ** Shadowing, computed *)

(** [complex({ selector: simple })("r").selector.value] *)
Example shadowed_selector :
  (let* m := complex {[ "selector" := simple ]} "r" in
   let* child := Get m "selector" in
   Get child "value") (mkState 0 [])
  = Ok (VString "r/selector") (mkState 4 []).
Proof. vm_compute. reflexivity. Qed.

(** [complex({ a: complex({ value: simple }) })("r").a.value.value] *)
Example shadowed_value :
  (let* o := complex {[ "a" := complex {[ "value" := simple ]} ]} "r" in
   let* m := Get o "a" in
   let* child := Get m "value" in
   Get child "value") (mkState 0 [])
  = Ok (VString "r/a/value") (mkState 6 []).
Proof. vm_compute. reflexivity. Qed.

(** [byKey(complex({ value: simple }))("c")("1").value.value] *)
Example shadowed_keyed :
  (let* c := byKey (complex {[ "value" := simple ]}) "c" in
   let* m := Call c (KString "1") in
   let* child := Get m "value" in
   Get child "value") (mkState 0 [])
  = Ok (VString "c/1/value") (mkState 6 []).
Proof. vm_compute. reflexivity. Qed.

(** * Further properties of the code *)

(** X1.  Visiting the declared keys in another order changes no own
    property of the result: the object has the same identity, every key
    has the same own property (the same attributes, the same getter or
    content) or none, and hence every field reads the same.  (The order
    of the own keys, which follows the order of the visits, is not
    represented in the model.) *)
Theorem key_order_changes_no_property (nodes : gmap string Schema)
    (value : string) (ks : list string) (s : State) :
  ks ≡ₚ Object_keys nodes →
  ∃ o o',
    complex nodes value s = Ok o (allocated 2 s) ∧
    (let* result := simple value in
     forEach ks (loop_body nodes value) result) s = Ok o' (allocated 2 s) ∧
    identity o' = identity o ∧
    (∀ k, own_props o' !! k = own_props o !! k) ∧
    (∀ k u, Get o' k u = Get o k u).
Proof.
  intros Hperm. eexists _, _. split; [apply complex_run |].
  assert ((let* result := simple value in
           forEach ks (loop_body nodes value) result) s
          = complex nodes value s) as ->.
  { unfold complex, bind. rewrite simple_run.
    symmetry. apply forEach_order.
    - apply NoDup_fst_map_to_list.
    - by symmetry.
    - apply marker_props_configurable. }
  split; [apply complex_run |]. by repeat split.
Qed.

Lemma key_order_changes_no_property_witness :
  ["b"; "a"] ≡ₚ Object_keys ({[ "a" := simple; "b" := simple ]}
                               : gmap string Schema) ∧
  ∃ o o',
    complex {[ "a" := simple; "b" := simple ]} "root" (mkState 0 [])
      = Ok o (allocated 2 (mkState 0 [])) ∧
    (let* result := simple "root" in
     forEach ["b"; "a"] (loop_body {[ "a" := simple; "b" := simple ]} "root")
       result) (mkState 0 []) = Ok o' (allocated 2 (mkState 0 [])) ∧
    identity o' = identity o ∧
    (∀ k, own_props o' !! k = own_props o !! k) ∧
    (∀ k u, Get o' k u = Get o k u).
Proof.
  assert (["b"; "a"] ≡ₚ Object_keys ({[ "a" := simple; "b" := simple ]}
                                       : gmap string Schema)) as Hperm.
  { vm_compute. first [reflexivity | apply perm_swap]. }
  split; [exact Hperm |].
  exact (key_order_changes_no_property {[ "a" := simple; "b" := simple ]}
           "root" ["b"; "a"] (mkState 0 []) Hperm).
Defined.

(** ** The own properties of a composite marker *)

(** X2.  The object that [complex nodes] returns has as own properties
    the three marker names and the declared keys, nothing else; a key is
    enumerable exactly when it is one of [value], [selector] and
    [nodeProps].  A declared child therefore shows in [Object.keys], a
    spread or [JSON.stringify] only if it is declared under one of these
    three names, where it takes the place of the marker field. *)
Theorem complex_own_keys (nodes : gmap string Schema) (value : string)
    (s : State) :
  ∃ o, complex nodes value s = Ok o (allocated 2 s) ∧
       (∀ k, is_Some (own_props o !! k)
             ↔ reserved k = true ∨ is_Some (nodes !! k)) ∧
       (∀ k, enumerable_key o k ↔ reserved k = true).
Proof.
  eexists. split; [apply complex_run |]. cbn [own_props]. split.
  - intros k. rewrite complex_props_lookup.
    destruct (nodes !! k) as [child |] eqn:E.
    + split; [intros _; right; by eexists | intros _; by eexists].
    + rewrite marker_props_dom. split; [by left |].
      intros [Hr | [x Hx]]; [exact Hr | discriminate Hx].
  - intros k. unfold enumerable_key. cbn [own_props].
    rewrite complex_props_lookup.
    destruct (nodes !! k) as [child |] eqn:E.
    + split.
      * intros (p & [= <-] & He). exact He.
      * intros Hr. eexists. split; [reflexivity | exact Hr].
    + split.
      * intros (p & Hp & _).
        apply (proj1 (marker_props_dom value (S (next_id s)) k)).
        by eexists.
      * intros Hr.
        destruct (marker_props_reserved value (S (next_id s)) ∅ k Hr)
          as [v Hv].
        exists (Data v true true true). by split.
Qed.

(** ** Assignment to a marker *)

Lemma Put_writable id call (props : props_t) k old e c v u :
  props !! k = Some (Data old true e c) →
  Put (VObject id call props) k v u =
  Ok (VObject id call (<[k := Data v true e c]> props)) u.
Proof. intros E. unfold Put. rewrite E. reflexivity. Qed.

Lemma Put_accessor id call (props : props_t) k get e c v u :
  props !! k = Some (Accessor get e c) →
  Put (VObject id call props) k v u = Throw TypeError u.
Proof. intros E. unfold Put. rewrite E. reflexivity. Qed.

(** X3.  A declared child field is read-only: the accessor has no setter,
    so a strict-mode assignment to it throws a [TypeError]; and unless the
    key is one of the three marker attributes the accessor is not
    configurable, so that a second [Object.defineProperty] on it is rejected
    as well. *)
Theorem child_fields_read_only (nodes : gmap string Schema) (k : string)
    (child : Schema) (value : string) (s : State) (o : val) (t : State) :
  nodes !! k = Some child → complex nodes value s = Ok o t →
  (∀ v u, Put o k v u = Throw TypeError u) ∧
  (reserved k = false →
   ∀ get u, Object_defineProperty o k get u = Throw TypeError u).
Proof.
  intros E Hrun. rewrite complex_run in Hrun. injection Hrun as <- <-.
  assert (complex_props nodes value (S (next_id s)) !! k =
          Some (Accessor (child (value +:+ "/" +:+ k)) (reserved k) (reserved k)))
    as Hk by (by rewrite complex_props_lookup, E).
  split.
  - intros v u. by apply (Put_accessor _ _ _ _ _ _ _ _ _ Hk).
  - intros Hr get u. rewrite Hr in Hk.
    by apply (defineProperty_rejected _ _ _ _ _ _ _ Hk).
Qed.

Lemma child_fields_read_only_witness :
  (({[ "header" := simple ]} : gmap string Schema) !! "header" = Some simple ∧
   complex {[ "header" := simple ]} "root" (mkState 0 []) =
     Ok (VObject 0 None (complex_props {[ "header" := simple ]} "root" 1))
        (mkState 2 []) ∧
   reserved "header" = false) ∧
  (∀ v u,
      Put (VObject 0 None (complex_props {[ "header" := simple ]} "root" 1))
        "header" v u = Throw TypeError u) ∧
  (∀ get u,
      Object_defineProperty
        (VObject 0 None (complex_props {[ "header" := simple ]} "root" 1))
        "header" get u = Throw TypeError u).
Proof.
  pose proof (complex_run {[ "header" := simple ]} "root" (mkState 0 []))
    as Hrun.
  assert (({[ "header" := simple ]} : gmap string Schema) !! "header"
          = Some simple) as E by reflexivity.
  destruct (child_fields_read_only {[ "header" := simple ]} "header" simple
              "root" (mkState 0 []) _ _ E Hrun) as [Hput Hdef].
  split; [split; [reflexivity | split; [exact Hrun | reflexivity]] |].
  split; [exact Hput | exact (Hdef eq_refl)].
Defined.

(** X4.  The marker fields are plain data computed once.  On the marker
    of a composite that does not declare the key [value], and on a keyed
    container, [m.value = x] succeeds and the marker then shows [x] under
    [value], but every other field reads as before: [selector] (where the
    composite does not declare it) still derives from the original value,
    every declared child still reads as the child schema on the path
    below the original value, and a keyed container still addresses its
    items below the original value.  Where the composite declares the key
    [value], the assignment throws a [TypeError] instead. *)
Theorem value_assignment_is_local :
  (∀ (nodes : gmap string Schema) value s o t x u,
      nodes !! "value" = None → complex nodes value s = Ok o t →
      ∃ o', Put o "value" (VString x) u = Ok o' u ∧
            identity o' = identity o ∧
            has_value o' x ∧
            (∀ k w, k ≠ "value" → Get o' k w = Get o k w) ∧
            (nodes !! "selector" = None →
             ∀ w, Get o' "selector" w = Ok (VString (selector_of value)) w) ∧
            (∀ k (child : Schema) w,
                nodes !! k = Some child →
                Get o' k w = child (value +:+ "/" +:+ k) w)) ∧
  (∀ (schema : Schema) value s c t x u,
      byKey schema value s = Ok c t →
      ∃ c', Put c "value" (VString x) u = Ok c' u ∧
            has_value c' x ∧
            (∀ w, Get c' "selector" w = Ok (VString (selector_of value)) w) ∧
            (∀ y w, Call c' y w = schema (value +:+ "/" +:+ stringify y) w)) ∧
  (∀ (nodes : gmap string Schema) (child : Schema) value s o t x u,
      nodes !! "value" = Some child → complex nodes value s = Ok o t →
      Put o "value" (VString x) u = Throw TypeError u).
Proof.
  split; [| split].
  - intros nodes value s o t x u Ev Hrun.
    rewrite complex_run in Hrun. injection Hrun as <- <-.
    assert (complex_props nodes value (S (next_id s)) !! "value" =
            Some (Data (VString value) true true true)) as Hv.
    { rewrite complex_props_lookup, Ev. apply marker_props_lookup. }
    eexists. split; [apply (Put_writable _ _ _ _ _ _ _ _ _ Hv) |].
    split; [reflexivity |].
    assert (∀ k w, k ≠ "value" →
              Get (VObject (next_id s) None
                     (<["value" := Data (VString x) true true true]>
                        (complex_props nodes value (S (next_id s))))) k w =
              Get (VObject (next_id s) None
                     (complex_props nodes value (S (next_id s)))) k w) as Hother.
    { intros k w Hk. unfold Get. by rewrite lookup_insert_ne. }
    split; [intros w; unfold Get; by rewrite lookup_insert_eq |].
    split; [exact Hother |]. split.
    + intros Es w. rewrite Hother by discriminate.
      rewrite Get_undeclared by assumption. apply Get_marker_selector.
    + intros k child w E.
      assert (k ≠ "value") as Hk by (intros ->; congruence).
      rewrite Hother by assumption. by apply Get_declared.
  - intros schema value s c t x u Hrun.
    rewrite byKey_run in Hrun. injection Hrun as <- <-.
    assert (marker_props value (S (next_id s)) function_props !! "value" =
            Some (Data (VString value) true true true)) as Hv
      by apply marker_props_lookup.
    eexists. split; [apply (Put_writable _ _ _ _ _ _ _ _ _ Hv) |].
    split; [intros w; unfold Get; by rewrite lookup_insert_eq |].
    split; [| reflexivity].
    intros w. unfold Get. rewrite lookup_insert_ne by discriminate.
    by rewrite marker_props_lookup.
  - intros nodes child value s o t x u Ev Hrun.
    rewrite complex_run in Hrun. injection Hrun as <- <-.
    eapply Put_accessor. by rewrite complex_props_lookup, Ev.
Qed.

Lemma value_assignment_is_local_witness :
  ((({[ "header" := simple ]} : gmap string Schema) !! "value" = None) ∧
   (({[ "header" := simple ]} : gmap string Schema) !! "selector" = None) ∧
   (({[ "header" := simple ]} : gmap string Schema) !! "header" = Some simple)) ∧
  (∃ o',
      Put (VObject 0 None (complex_props {[ "header" := simple ]} "root" 1))
        "value" (VString "other") (mkState 2 []) = Ok o' (mkState 2 []) ∧
      has_value o' "other" ∧
      (∀ w, Get o' "selector" w = Ok (VString (selector_of "root")) w) ∧
      (∀ w, Get o' "header" w = simple ("root" +:+ "/" +:+ "header") w)) ∧
  (∃ c',
      Put (VObject 0 (Some (λ key, simple ("items" +:+ "/" +:+ stringify key)))
             (marker_props "items" 1 function_props))
        "value" (VString "other") (mkState 2 []) = Ok c' (mkState 2 []) ∧
      has_value c' "other" ∧
      ∀ y w, Call c' y w = simple ("items" +:+ "/" +:+ stringify y) w) ∧
  ((({[ "value" := simple ]} : gmap string Schema) !! "value" = Some simple) ∧
   Put (VObject 0 None (complex_props {[ "value" := simple ]} "root" 1))
     "value" (VString "other") (mkState 2 []) = Throw TypeError (mkState 2 [])).
Proof.
  assert (({[ "value" := simple ]} : gmap string Schema) !! "value"
          = Some simple) as Ed by reflexivity.
  assert (({[ "header" := simple ]} : gmap string Schema) !! "value" = None)
    as Ev by reflexivity.
  assert (({[ "header" := simple ]} : gmap string Schema) !! "selector" = None)
    as Es by reflexivity.
  assert (({[ "header" := simple ]} : gmap string Schema) !! "header"
          = Some simple) as Eh by reflexivity.
  split; [split; [exact Ev | split; [exact Es | exact Eh]] |].
  destruct value_assignment_is_local as (H1 & H2 & H3).
  split; [| split].
  - destruct (H1 {[ "header" := simple ]} "root" (mkState 0 []) _ _ "other"
                (mkState 2 []) Ev
                (complex_run {[ "header" := simple ]} "root" (mkState 0 [])))
      as (o' & Hput & _ & Hv & _ & Hsel & Hchild).
    exists o'. split; [exact Hput |]. split; [exact Hv |].
    split; [exact (Hsel Es) |].
    intros w. exact (Hchild "header" simple w Eh).
  - destruct (H2 simple "items" (mkState 0 []) _ _ "other" (mkState 2 [])
                (byKey_run simple "items" (mkState 0 [])))
      as (c' & Hput & Hv & _ & Hcall).
    exists c'. split; [exact Hput |]. split; [exact Hv | exact Hcall].
  - split; [exact Ed |].
    exact (H3 {[ "value" := simple ]} simple "root" (mkState 0 []) _ _ "other"
             (mkState 2 []) Ed
             (complex_run {[ "value" := simple ]} "root" (mkState 0 []))).
Defined.

(** ** Navigation *)

Lemma append_empty_r (a : string) : a +:+ "" = a.
Proof.
  induction a as [| c a IH]; [reflexivity |].
  change (String c (a +:+ "") = String c a). by rewrite IH.
Qed.

Lemma join_suffix value ks : join value ks = value +:+ suffix ks.
Proof.
  revert value. induction ks as [| k ks IH]; intros value.
  - symmetry. apply append_empty_r.
  - change (join value (k :: ks)) with (join (value +:+ "/" +:+ k) ks).
    rewrite IH. symmetry. apply (append_assoc value ("/" +:+ k) (suffix ks)).
Qed.

Lemma split_join value ks :
  Forall (λ k, no_separator k = true) ks →
  split_path (join value ks) = split_path value ++ ks.
Proof.
  intros Hks. revert value.
  induction Hks as [| k ks Hk _ IH]; intros value.
  - by rewrite app_nil_r.
  - change (join value (k :: ks)) with (join (value +:+ "/" +:+ k) ks).
    rewrite IH, split_path_app, (split_path_segment k Hk), <- app_assoc.
    reflexivity.
Qed.

Ltac case_result :=
  match goal with
  | |- context [match ?r with Ok _ _ => _ | Throw _ _ => _ end] =>
      destruct r; reflexivity
  end.

Lemma navigate_leads S steps X :
  leads S steps X → steps ≠ [] →
  ∀ value s o t, S value s = Ok o t →
  ∀ u, ∃ u',
    navigate steps o u = X (join value (step_string <$> steps)) u' ∧
    trace u' = trace u.
Proof.
  induction 1 as [X | nodes k child steps X E Hl IH | schema x steps X Hl IH];
    intros Hne value s o t Hrun u.
  - contradiction.
  - rewrite complex_run in Hrun. injection Hrun as <- <-.
    cbn [navigate]. unfold bind. rewrite (Get_declared _ _ _ _ _ _ _ E).
    change (join value (step_string <$> Field k :: steps))
      with (join (value +:+ "/" +:+ k) (step_string <$> steps)).
    destruct steps as [| st rest].
    + inversion Hl; subst. exists u. split; [| reflexivity].
      cbn. case_result.
    + assert (∃ m, child (value +:+ "/" +:+ k) u = Ok m (allocated 2 u))
        as [m Hm].
      { inversion Hl; subst; eexists;
          [apply complex_run | apply byKey_run]. }
      rewrite Hm.
      destruct (IH ltac:(discriminate) _ _ _ _ Hm (allocated 2 u))
        as (u' & Hnav & Htr).
      exists u'. split; [exact Hnav | exact Htr].
  - rewrite byKey_run in Hrun. injection Hrun as <- <-.
    cbn [navigate]. unfold bind. rewrite Call_container.
    change (join value (step_string <$> Keyed x :: steps))
      with (join (value +:+ "/" +:+ stringify x) (step_string <$> steps)).
    destruct steps as [| st rest].
    + inversion Hl; subst. exists u. split; [| reflexivity].
      cbn. case_result.
    + assert (∃ m, schema (value +:+ "/" +:+ stringify x) u
                   = Ok m (allocated 2 u)) as [m Hm].
      { inversion Hl; subst; eexists;
          [apply complex_run | apply byKey_run]. }
      rewrite Hm.
      destruct (IH ltac:(discriminate) _ _ _ _ Hm (allocated 2 u))
        as (u' & Hnav & Htr).
      exists u'. split; [exact Hnav | exact Htr].
Qed.

Lemma navigate_value S steps X value s o t u :
  leads S steps X → steps ≠ [] → keeps_value X → S value s = Ok o t →
  ∃ m u', navigate steps o u = Ok m u' ∧
          has_value m (join value (step_string <$> steps)).
Proof.
  intros Hl Hne Hk Hrun.
  destruct (navigate_leads S steps X Hl Hne value s o t Hrun u)
    as (u' & Hnav & _).
  destruct (Hk (join value (step_string <$> steps)) u') as (m & w & Hx & Hv).
  exists m, w. split; [by rewrite Hnav | exact Hv].
Qed.

(** X5.  Field reads and keyed calls compose: going down a declared tree
    by any mix of child fields and keys, from a marker built earlier and
    in whatever state, is one run of the schema arrived at, on the root
    value followed by [/segment] for every step; no traced schema on the
    way is run, and where that schema keeps its path the marker's value
    is that path. *)
Theorem navigation S steps X value s o t :
  leads S steps X → steps ≠ [] → S value s = Ok o t →
  (∀ u, ∃ u',
      navigate steps o u = X (value +:+ suffix (step_string <$> steps)) u' ∧
      trace u' = trace u) ∧
  (keeps_value X →
   ∀ u, ∃ m u',
     navigate steps o u = Ok m u' ∧
     has_value m (value +:+ suffix (step_string <$> steps))).
Proof.
  intros Hl Hne Hrun. rewrite <- join_suffix. split.
  - intros u. by apply (navigate_leads S steps X Hl Hne value s o t).
  - intros Hk u. by apply (navigate_value S steps X value s o t).
Qed.

Lemma leads_example :
  leads (complex {[ "footer" := complex {[ "items" := byKey simple ]} ]})
    [Field "footer"; Field "items"; Keyed (KNumber 3 I)] simple.
Proof.
  apply leads_field with (child := complex {[ "items" := byKey simple ]});
    [reflexivity |].
  apply leads_field with (child := byKey simple); [reflexivity |].
  apply leads_key, leads_here.
Defined.

Lemma navigation_witness :
  (leads (complex {[ "footer" := complex {[ "items" := byKey simple ]} ]})
     [Field "footer"; Field "items"; Keyed (KNumber 3 I)] simple ∧
   [Field "footer"; Field "items"; Keyed (KNumber 3 I)] ≠ [] ∧
   keeps_value simple) ∧
  ∃ o t,
    complex {[ "footer" := complex {[ "items" := byKey simple ]} ]} "root"
      (mkState 0 []) = Ok o t ∧
    ∀ u, ∃ m u',
      navigate [Field "footer"; Field "items"; Keyed (KNumber 3 I)] o u
        = Ok m u' ∧
      has_value m ("root" +:+ suffix ["footer"; "items"; stringify (KNumber 3 I)]).
Proof.
  assert ([Field "footer"; Field "items"; Keyed (KNumber 3 I)] ≠ []) as Hne
    by discriminate.
  split; [split; [exact leads_example |];
          split; [exact Hne | exact keeps_value_simple] |].
  eexists _, _. split; [apply complex_run |].
  exact (proj2 (navigation _ _ simple "root" (mkState 0 []) _ _
                  leads_example Hne (complex_run _ "root" (mkState 0 [])))
           keeps_value_simple).
Defined.

(** X6.  The path decodes back into the way taken: when no step's
    segment contains the separator, the path on which the schema arrived
    at is run splits into the segments of the root value followed by the
    segments of the steps, in order; where that schema keeps its path
    under [value] (as [simple], every [byKey] schema and every composite
    not declaring the key [value] do), this is the value of the marker
    arrived at. *)
Theorem value_decodes S steps X value s o t u :
  leads S steps X → steps ≠ [] →
  Forall (λ st, no_separator (step_string st) = true) steps →
  S value s = Ok o t →
  (∃ p u',
      navigate steps o u = X p u' ∧
      split_path p = split_path value ++ (step_string <$> steps)) ∧
  (keeps_value X →
   ∃ m u' y,
     navigate steps o u = Ok m u' ∧ has_value m y ∧
     split_path y = split_path value ++ (step_string <$> steps)).
Proof.
  intros Hl Hne Hsep Hrun.
  assert (split_path (join value (step_string <$> steps))
          = split_path value ++ (step_string <$> steps)) as Hsplit
    by (apply split_join; by apply Forall_fmap).
  split.
  - destruct (navigate_leads S steps X Hl Hne value s o t Hrun u)
      as (u' & Hnav & _).
    by exists (join value (step_string <$> steps)), u'.
  - intros Hk.
    destruct (navigate_value S steps X value s o t u Hl Hne Hk Hrun)
      as (m & u' & Hnav & Hv).
    by exists m, u', (join value (step_string <$> steps)).
Qed.

Lemma steps_example_separators :
  Forall (λ st, no_separator (step_string st) = true)
    [Field "footer"; Field "items"; Keyed (KNumber 3 I)].
Proof. repeat constructor. Defined.

Lemma value_decodes_witness :
  (leads (complex {[ "footer" := complex {[ "items" := byKey simple ]} ]})
     [Field "footer"; Field "items"; Keyed (KNumber 3 I)] simple ∧
   [Field "footer"; Field "items"; Keyed (KNumber 3 I)] ≠ [] ∧
   keeps_value simple ∧
   Forall (λ st, no_separator (step_string st) = true)
     [Field "footer"; Field "items"; Keyed (KNumber 3 I)]) ∧
  ∃ o t m u' y,
    complex {[ "footer" := complex {[ "items" := byKey simple ]} ]} "root"
      (mkState 0 []) = Ok o t ∧
    navigate [Field "footer"; Field "items"; Keyed (KNumber 3 I)] o
      (mkState 7 []) = Ok m u' ∧
    has_value m y ∧
    split_path y =
      split_path "root" ++
      (step_string <$> [Field "footer"; Field "items"; Keyed (KNumber 3 I)]).
Proof.
  assert ([Field "footer"; Field "items"; Keyed (KNumber 3 I)] ≠ []) as Hne
    by discriminate.
  split; [split; [exact leads_example |];
          split; [exact Hne |];
          split; [exact keeps_value_simple | exact steps_example_separators] |].
  destruct (proj2 (value_decodes _ _ simple "root" (mkState 0 []) _ _
                     (mkState 7 []) leads_example Hne steps_example_separators
                     (complex_run _ "root" (mkState 0 [])))
              keeps_value_simple)
    as (m & u' & y & Hnav & Hv & Hsplit).
  eexists _, _, m, u', y. split; [apply complex_run |].
  split; [exact Hnav |]. split; [exact Hv | exact Hsplit].
Defined.

Lemma length_append (a b : string) :
  String.length (a +:+ b) = String.length a + String.length b.
Proof.
  induction a as [| c a IH]; [reflexivity |].
  change (S (String.length (a +:+ b)) = S (String.length a + String.length b)).
  by rewrite IH.
Qed.

Lemma append_inj_l (a b s : string) : a +:+ s = b +:+ s → a = b.
Proof.
  revert b. induction a as [| c a IH]; intros [| d b] Heq.
  - reflexivity.
  - apply (f_equal String.length) in Heq.
    change ("" +:+ s) with s in Heq.
    rewrite (length_append (String d b) s) in Heq.
    change (String.length (String d b)) with (S (String.length b)) in Heq.
    lia.
  - apply (f_equal String.length) in Heq.
    change ("" +:+ s) with s in Heq.
    rewrite (length_append (String c a) s) in Heq.
    change (String.length (String c a)) with (S (String.length a)) in Heq.
    lia.
  - change (String c (a +:+ s) = String d (b +:+ s)) in Heq.
    injection Heq as -> Heq. f_equal. by apply IH.
Qed.

Lemma plain_simple : plain simple.
Proof.
  intros path s. do 2 eexists. split; [apply simple_run |].
  split; intros u; [apply Get_marker_value | apply Get_marker_selector].
Qed.

Lemma plain_byKey (schema : Schema) : plain (byKey schema).
Proof.
  intros path s. do 2 eexists. split; [apply byKey_run |].
  split; intros u; [apply Get_marker_value | apply Get_marker_selector].
Qed.

Lemma plain_complex (nodes : gmap string Schema) :
  nodes !! "value" = None → nodes !! "selector" = None →
  plain (complex nodes).
Proof.
  intros Ev Es path s. do 2 eexists. split; [apply complex_run |].
  split; intros u; rewrite Get_undeclared by assumption;
    [apply Get_marker_value | apply Get_marker_selector].
Qed.

Lemma selector_of_inj a b : selector_of a = selector_of b → a = b.
Proof.
  intros Heq. unfold selector_of in Heq.
  by apply (append_inj_r "[data-test='"), append_inj_l in Heq.
Qed.

(** X7.  Different ways lead to different paths: from one root marker,
    two ways down whose segments differ somewhere, none containing the
    separator, run the schemas they arrive at on different paths; where
    these schemas are plain ([simple], a [byKey] schema, a composite
    declaring neither [value] nor [selector]) the two markers show
    different strings under [value] and different strings under
    [selector]. *)
Theorem distinct_positions S steps1 X1 steps2 X2 value s o t u1 u2 :
  leads S steps1 X1 → leads S steps2 X2 →
  steps1 ≠ [] → steps2 ≠ [] →
  Forall (λ st, no_separator (step_string st) = true) steps1 →
  Forall (λ st, no_separator (step_string st) = true) steps2 →
  step_string <$> steps1 ≠ step_string <$> steps2 →
  S value s = Ok o t →
  (∃ p1 u1' p2 u2',
      navigate steps1 o u1 = X1 p1 u1' ∧ navigate steps2 o u2 = X2 p2 u2' ∧
      p1 ≠ p2) ∧
  (plain X1 → plain X2 →
   ∃ m1 u1' y1 sel1 m2 u2' y2 sel2,
     navigate steps1 o u1 = Ok m1 u1' ∧ navigate steps2 o u2 = Ok m2 u2' ∧
     has_value m1 y1 ∧ has_value m2 y2 ∧ y1 ≠ y2 ∧
     (∀ w, Get m1 "selector" w = Ok (VString sel1) w) ∧
     (∀ w, Get m2 "selector" w = Ok (VString sel2) w) ∧
     sel1 ≠ sel2).
Proof.
  intros Hl1 Hl2 Hne1 Hne2 Hs1 Hs2 Hdiff Hrun.
  destruct (navigate_leads S steps1 X1 Hl1 Hne1 value s o t Hrun u1)
    as (u1' & Hn1 & _).
  destruct (navigate_leads S steps2 X2 Hl2 Hne2 value s o t Hrun u2)
    as (u2' & Hn2 & _).
  assert (join value (step_string <$> steps1)
          ≠ join value (step_string <$> steps2)) as Hy.
  { intros Heq. apply Hdiff.
    apply (f_equal split_path) in Heq.
    rewrite !split_join in Heq by (by apply Forall_fmap).
    by apply app_inv_head in Heq. }
  split.
  - eexists _, u1', _, u2'. split; [exact Hn1 |]. split; [exact Hn2 | exact Hy].
  - intros Hp1 Hp2.
    destruct (Hp1 (join value (step_string <$> steps1)) u1')
      as (m1 & w1 & Hx1 & Hv1 & Hsel1).
    destruct (Hp2 (join value (step_string <$> steps2)) u2')
      as (m2 & w2 & Hx2 & Hv2 & Hsel2).
    eexists m1, w1, _, _, m2, w2, _, _.
    split; [by rewrite Hn1 |]. split; [by rewrite Hn2 |].
    split; [exact Hv1 |]. split; [exact Hv2 |]. split; [exact Hy |].
    split; [exact Hsel1 |]. split; [exact Hsel2 |].
    intros Heq. by apply Hy, selector_of_inj.
Qed.

Lemma leads_example_sibling :
  leads (complex {[ "footer" := complex {[ "items" := byKey simple ]} ]})
    [Field "footer"; Field "items"; Keyed (KString "4")] simple.
Proof.
  apply leads_field with (child := complex {[ "items" := byKey simple ]});
    [reflexivity |].
  apply leads_field with (child := byKey simple); [reflexivity |].
  apply leads_key, leads_here.
Defined.

Lemma steps_sibling_separators :
  Forall (λ st, no_separator (step_string st) = true)
    [Field "footer"; Field "items"; Keyed (KString "4")].
Proof. repeat constructor. Defined.

Lemma distinct_positions_witness :
  (leads (complex {[ "footer" := complex {[ "items" := byKey simple ]} ]})
     [Field "footer"; Field "items"; Keyed (KNumber 3 I)] simple ∧
   leads (complex {[ "footer" := complex {[ "items" := byKey simple ]} ]})
     [Field "footer"; Field "items"; Keyed (KString "4")] simple ∧
   plain simple ∧
   (step_string <$> [Field "footer"; Field "items"; Keyed (KNumber 3 I)])
   ≠ (step_string <$> [Field "footer"; Field "items"; Keyed (KString "4")])) ∧
  ∃ o t m1 u1' y1 sel1 m2 u2' y2 sel2,
    complex {[ "footer" := complex {[ "items" := byKey simple ]} ]} "root"
      (mkState 0 []) = Ok o t ∧
    navigate [Field "footer"; Field "items"; Keyed (KNumber 3 I)] o
      (mkState 2 []) = Ok m1 u1' ∧
    navigate [Field "footer"; Field "items"; Keyed (KString "4")] o
      (mkState 8 []) = Ok m2 u2' ∧
    has_value m1 y1 ∧ has_value m2 y2 ∧ y1 ≠ y2 ∧
    (∀ w, Get m1 "selector" w = Ok (VString sel1) w) ∧
    (∀ w, Get m2 "selector" w = Ok (VString sel2) w) ∧
    sel1 ≠ sel2.
Proof.
  assert ((step_string <$> [Field "footer"; Field "items";
                             Keyed (KNumber 3 I)])
          ≠ (step_string <$> [Field "footer"; Field "items";
                              Keyed (KString "4")])) as Hdiff
    by (vm_compute; discriminate).
  split; [split; [exact leads_example |];
          split; [exact leads_example_sibling |];
          split; [exact plain_simple | exact Hdiff] |].
  destruct (proj2 (distinct_positions _ _ simple _ simple "root"
                     (mkState 0 []) _ _ (mkState 2 []) (mkState 8 [])
                     leads_example leads_example_sibling
                     ltac:(discriminate) ltac:(discriminate)
                     steps_example_separators steps_sibling_separators Hdiff
                     (complex_run _ "root" (mkState 0 [])))
              plain_simple plain_simple)
    as (m1 & u1' & y1 & sel1 & m2 & u2' & y2 & sel2
        & Hn1 & Hn2 & Hv1 & Hv2 & Hy & G1 & G2 & Hsel).
  eexists _, _, m1, u1', y1, sel1, m2, u2', y2, sel2.
  split; [apply complex_run |].
  split; [exact Hn1 |]. split; [exact Hn2 |].
  split; [exact Hv1 |]. split; [exact Hv2 |]. split; [exact Hy |].
  split; [exact G1 |]. split; [exact G2 | exact Hsel].
Defined.

(** ** Keys the code does not check *)

Lemma trailing_separator_not_ok value : ¬ path_ok (value +:+ "/").
Proof.
  unfold path_ok. change (value +:+ "/") with (value +:+ "/" +:+ "").
  rewrite split_path_app. intros Hn. apply Hn.
  apply elem_of_app. right. cbn. by apply list_elem_of_singleton.
Qed.

(** X8.  The empty key is not rejected: calling a keyed container with
    the empty string runs the wrapped schema, and reading a child
    declared under the empty key runs the child schema, on the parent's
    value followed by a bare separator, a path with an empty last
    segment; nothing is raised on the way.  Where that schema keeps its
    path under [value] (as [simple], every [byKey] schema and every
    composite not declaring the key [value] do), the marker obtained has
    this malformed path as its value. *)
Theorem empty_key_accepted :
  (∀ (schema : Schema) value s, ∃ c t,
      byKey schema value s = Ok c t ∧
      (∀ u, Call c (KString "") u = schema (value +:+ "/") u) ∧
      ¬ path_ok (value +:+ "/")) ∧
  (∀ (nodes : gmap string Schema) (child : Schema) value s,
      nodes !! "" = Some child →
      ∃ o t,
        complex nodes value s = Ok o t ∧
        (∀ u, Get o "" u = child (value +:+ "/") u) ∧
        ¬ path_ok (value +:+ "/")) ∧
  (∀ (schema : Schema) value s,
      keeps_value schema →
      ∃ c t m u,
        byKey schema value s = Ok c t ∧ Call c (KString "") t = Ok m u ∧
        has_value m (value +:+ "/")) ∧
  (∀ (nodes : gmap string Schema) (child : Schema) value s,
      nodes !! "" = Some child → keeps_value child →
      ∃ o t m u,
        complex nodes value s = Ok o t ∧ Get o "" t = Ok m u ∧
        has_value m (value +:+ "/")).
Proof.
  split; [| split; [| split]].
  - intros schema value s. eexists _, _. split; [apply byKey_run |].
    split; [reflexivity | apply trailing_separator_not_ok].
  - intros nodes child value s E. eexists _, _.
    split; [apply complex_run |]. split; [| apply trailing_separator_not_ok].
    intros u. exact (Get_declared _ _ _ _ _ _ _ E).
  - intros schema value s Hk.
    destruct (Hk (value +:+ "/") (allocated 2 s)) as (m & u & Hrun & Hv).
    eexists _, _, m, u. split; [apply byKey_run |].
    split; [exact Hrun | exact Hv].
  - intros nodes child value s E Hk.
    destruct (Hk (value +:+ "/") (allocated 2 s)) as (m & u & Hrun & Hv).
    eexists _, _, m, u. split; [apply complex_run |].
    split; [rewrite (Get_declared _ _ _ _ _ _ _ E); exact Hrun | exact Hv].
Qed.

Lemma empty_key_accepted_witness :
  (keeps_value simple ∧
   ({[ "" := simple ]} : gmap string Schema) !! "" = Some simple) ∧
  (∃ o t,
      complex {[ "" := simple ]} "root" (mkState 0 []) = Ok o t ∧
      (∀ u, Get o "" u = simple ("root" +:+ "/") u) ∧
      ¬ path_ok ("root" +:+ "/")) ∧
  (∃ c t m u,
      byKey simple "items" (mkState 0 []) = Ok c t ∧
      Call c (KString "") t = Ok m u ∧
      has_value m ("items" +:+ "/")) ∧
  (∃ o t m u,
      complex {[ "" := simple ]} "root" (mkState 0 []) = Ok o t ∧
      Get o "" t = Ok m u ∧
      has_value m ("root" +:+ "/")).
Proof.
  assert (({[ "" := simple ]} : gmap string Schema) !! "" = Some simple)
    as E by reflexivity.
  destruct empty_key_accepted as (_ & E2 & E3 & E4).
  split; [split; [exact keeps_value_simple | exact E] |].
  split; [| split].
  - exact (E2 {[ "" := simple ]} simple "root" (mkState 0 []) E).
  - exact (E3 simple "items" (mkState 0 []) keeps_value_simple).
  - exact (E4 {[ "" := simple ]} simple "root" (mkState 0 []) E
             keeps_value_simple).
Defined.

(** X9.  A key containing the separator is accepted and makes two places
    of one tree share a path: the child declared under [a/b] and the
    child [b] of the child [a] are both run on [value/a/b]; where both
    child schemas keep their path under [value] (as [simple], every
    [byKey] schema and every composite not declaring the key [value] do),
    the two markers both have the value [value/a/b]. *)
Theorem separator_key_collides (nodes inner : gmap string Schema)
    (a b : string) (X Y : Schema) (value : string) (s : State) :
  nodes !! (a +:+ "/" +:+ b) = Some X →
  nodes !! a = Some (complex inner) → inner !! b = Some Y →
  ∃ o t,
    complex nodes value s = Ok o t ∧
    (∀ u, Get o (a +:+ "/" +:+ b) u
          = X (value +:+ "/" +:+ a +:+ "/" +:+ b) u) ∧
    (∀ u, navigate [Field a; Field b] o u
          = Y (value +:+ "/" +:+ a +:+ "/" +:+ b) (allocated 2 u)) ∧
    (keeps_value X → keeps_value Y →
     ∀ u, ∃ m1 u1 m2 u2,
       Get o (a +:+ "/" +:+ b) u = Ok m1 u1 ∧
       navigate [Field a; Field b] o u1 = Ok m2 u2 ∧
       has_value m1 (value +:+ "/" +:+ a +:+ "/" +:+ b) ∧
       has_value m2 (value +:+ "/" +:+ a +:+ "/" +:+ b)).
Proof.
  intros EX Ea Eb.
  assert ((value +:+ "/" +:+ a) +:+ "/" +:+ b
          = value +:+ "/" +:+ a +:+ "/" +:+ b) as Hassoc.
  { symmetry. apply (append_assoc value ("/" +:+ a) ("/" +:+ b)). }
  assert (∀ u, navigate [Field a; Field b]
                 (VObject (next_id s) None
                    (complex_props nodes value (S (next_id s)))) u
               = Y (value +:+ "/" +:+ a +:+ "/" +:+ b) (allocated 2 u))
    as Hnav.
  { intros u. cbn [navigate]. unfold bind.
    rewrite (Get_declared _ _ _ _ _ _ _ Ea), complex_run.
    rewrite (Get_declared _ _ _ _ _ _ _ Eb), Hassoc. case_result. }
  eexists _, _. split; [apply complex_run |].
  split; [intros u; exact (Get_declared _ _ _ _ _ _ _ EX) |].
  split; [exact Hnav |].
  intros HX HY u.
  destruct (HX (value +:+ "/" +:+ a +:+ "/" +:+ b) u) as (m1 & u1 & H1 & Hv1).
  destruct (HY (value +:+ "/" +:+ a +:+ "/" +:+ b) (allocated 2 u1))
    as (m2 & u2 & H2 & Hv2).
  exists m1, u1, m2, u2.
  split; [rewrite (Get_declared _ _ _ _ _ _ _ EX); exact H1 |].
  split; [rewrite Hnav; exact H2 |]. split; [exact Hv1 | exact Hv2].
Qed.

Lemma separator_key_collides_witness :
  ((({[ "a/b" := simple; "a" := complex {[ "b" := simple ]} ]}
       : gmap string Schema) !! ("a" +:+ "/" +:+ "b") = Some simple) ∧
   (({[ "a/b" := simple; "a" := complex {[ "b" := simple ]} ]}
       : gmap string Schema) !! "a" = Some (complex {[ "b" := simple ]})) ∧
   (({[ "b" := simple ]} : gmap string Schema) !! "b" = Some simple) ∧
   keeps_value simple) ∧
  ∃ o t,
    complex {[ "a/b" := simple; "a" := complex {[ "b" := simple ]} ]} "root"
      (mkState 0 []) = Ok o t ∧
    ∀ u, ∃ m1 u1 m2 u2,
      Get o ("a" +:+ "/" +:+ "b") u = Ok m1 u1 ∧
      navigate [Field "a"; Field "b"] o u1 = Ok m2 u2 ∧
      has_value m1 "root/a/b" ∧ has_value m2 "root/a/b".
Proof.
  assert (({[ "a/b" := simple; "a" := complex {[ "b" := simple ]} ]}
             : gmap string Schema) !! ("a" +:+ "/" +:+ "b") = Some simple)
    as EX by reflexivity.
  assert (({[ "a/b" := simple; "a" := complex {[ "b" := simple ]} ]}
             : gmap string Schema) !! "a" = Some (complex {[ "b" := simple ]}))
    as Ea by reflexivity.
  assert (({[ "b" := simple ]} : gmap string Schema) !! "b" = Some simple)
    as Eb by reflexivity.
  split; [split; [exact EX |]; split; [exact Ea |];
          split; [exact Eb | exact keeps_value_simple] |].
  destruct (separator_key_collides _ _ "a" "b" simple simple "root"
              (mkState 0 []) EX Ea Eb) as (o & t & Hrun & _ & _ & Hboth).
  exists o, t. split; [exact Hrun |].
  exact (Hboth keeps_value_simple keeps_value_simple).
Defined.

(** ** Declaring one more child *)

(** X10.  Children are independent of each other: declaring (or
    redeclaring) a key [k] changes what the field [k] reads, namely the
    new child schema on [value/k], and nothing else: every other field of
    the marker reads as it did without the declaration. *)
Theorem declaring_a_key (nodes : gmap string Schema) (k : string)
    (child : Schema) (value : string) (s : State) :
  ∃ o o',
    complex nodes value s = Ok o (allocated 2 s) ∧
    complex (<[k := child]> nodes) value s = Ok o' (allocated 2 s) ∧
    identity o' = identity o ∧
    (∀ u, Get o' k u = child (value +:+ "/" +:+ k) u) ∧
    (∀ k' u, k' ≠ k → Get o' k' u = Get o k' u).
Proof.
  eexists _, _. split; [apply complex_run |]. split; [apply complex_run |].
  split; [reflexivity |]. split.
  - intros u. apply Get_declared. apply lookup_insert_eq.
  - intros k' u Hne. unfold Get. rewrite !complex_props_lookup.
    by rewrite lookup_insert_ne by congruence.
Qed.

Lemma declaring_a_key_witness :
  "header" ≠ "footer" ∧
  ∃ o o',
    complex {[ "header" := simple ]} "root" (mkState 0 [])
      = Ok o (allocated 2 (mkState 0 [])) ∧
    complex (<["footer" := byKey simple]> {[ "header" := simple ]}) "root"
      (mkState 0 []) = Ok o' (allocated 2 (mkState 0 [])) ∧
    (∀ u, Get o' "footer" u = byKey simple ("root" +:+ "/" +:+ "footer") u) ∧
    (∀ u, Get o' "header" u = Get o "header" u).
Proof.
  split; [discriminate |].
  destruct (declaring_a_key {[ "header" := simple ]} "footer" (byKey simple)
              "root" (mkState 0 []))
    as (o & o' & H1 & H2 & _ & Hk & Hother).
  exists o, o'. split; [exact H1 |]. split; [exact H2 |].
  split; [exact Hk |]. intros u. apply Hother. discriminate.
Defined.

(** ** Selectors identify values *)

(** X11.  The selector determines the value: two markers of [simple], or
    a marker of [simple] and a keyed container, that show the same
    selector were built with the same value, although nothing in the
    value is escaped. *)
Theorem selector_identifies_value :
  (∀ a b s1 t1 m1 s2 t2 m2 sel u1 u2,
      simple a s1 = Ok m1 t1 → simple b s2 = Ok m2 t2 →
      Get m1 "selector" u1 = Ok sel u1 → Get m2 "selector" u2 = Ok sel u2 →
      a = b) ∧
  (∀ (schema : Schema) a b s1 t1 m1 s2 t2 m2 sel u1 u2,
      byKey schema a s1 = Ok m1 t1 → simple b s2 = Ok m2 t2 →
      Get m1 "selector" u1 = Ok sel u1 → Get m2 "selector" u2 = Ok sel u2 →
      a = b).
Proof.
  assert (∀ a b, selector_of a = selector_of b → a = b) as Hinj.
  { intros a b Heq. unfold selector_of in Heq.
    by apply (append_inj_r "[data-test='"), append_inj_l in Heq. }
  split.
  - intros a b s1 t1 m1 s2 t2 m2 sel u1 u2 H1 H2 G1 G2.
    rewrite simple_run in H1, H2.
    injection H1 as <- <-. injection H2 as <- <-.
    rewrite Get_marker_selector in G1, G2.
    apply Hinj. congruence.
  - intros schema a b s1 t1 m1 s2 t2 m2 sel u1 u2 H1 H2 G1 G2.
    rewrite byKey_run in H1. rewrite simple_run in H2.
    injection H1 as <- <-. injection H2 as <- <-.
    rewrite Get_marker_selector in G1, G2.
    apply Hinj. congruence.
Qed.

Lemma selector_identifies_value_witness :
  (simple "a'b" (mkState 0 []) =
     Ok (VObject 0 None (marker_props "a'b" 1 ∅)) (mkState 2 []) ∧
   byKey simple "a'b" (mkState 2 []) =
     Ok (VObject 2 (Some (λ key, simple ("a'b" +:+ "/" +:+ stringify key)))
           (marker_props "a'b" 3 function_props)) (mkState 4 []) ∧
   Get (VObject 0 None (marker_props "a'b" 1 ∅)) "selector" (mkState 4 []) =
     Ok (VString "[data-test='a'b']") (mkState 4 [])) ∧
  "a'b" = "a'b".
Proof.
  pose proof (simple_run "a'b" (mkState 0 [])) as H1.
  pose proof (byKey_run simple "a'b" (mkState 2 [])) as H2.
  pose proof (Get_marker_selector 0 None "a'b" 1 ∅ (mkState 4 [])) as G1.
  pose proof (Get_marker_selector 2
                (Some (λ key, simple ("a'b" +:+ "/" +:+ stringify key)))
                "a'b" 3 function_props (mkState 4 [])) as G2.
  split; [split; [exact H1 | split; [exact H2 | exact G1]] |].
  exact (proj2 selector_identifies_value simple "a'b" "a'b" _ _ _ _ _ _ _
           (mkState 4 []) (mkState 4 []) H2 H1 G2 G1).
Defined.

(** ** Misuse *)

(** X12.  Only keyed containers can be called: the markers of [simple]
    and of [complex] are plain objects, so that calling one with a key,
    as in [complex({ items: simple })(v).items(x)], throws a [TypeError]
    at the call and runs nothing. *)
Theorem only_containers_are_callable :
  (∀ value s m t x u,
      simple value s = Ok m t → Call m x u = Throw TypeError u) ∧
  (∀ (nodes : gmap string Schema) value s m t x u,
      complex nodes value s = Ok m t → Call m x u = Throw TypeError u) ∧
  (∀ (nodes inner : gmap string Schema) k value s o t x u,
      nodes !! k = Some simple ∨ nodes !! k = Some (complex inner) →
      complex nodes value s = Ok o t →
      navigate [Field k; Keyed x] o u = Throw TypeError (allocated 2 u)).
Proof.
  split; [| split].
  - intros value s m t x u Hrun. rewrite simple_run in Hrun.
    by injection Hrun as <- <-.
  - intros nodes value s m t x u Hrun. rewrite complex_run in Hrun.
    by injection Hrun as <- <-.
  - intros nodes inner k value s o t x u E Hrun.
    rewrite complex_run in Hrun. injection Hrun as <- <-.
    cbn [navigate]. unfold bind.
    destruct E as [E | E]; rewrite (Get_declared _ _ _ _ _ _ _ E).
    + rewrite simple_run. reflexivity.
    + rewrite complex_run. reflexivity.
Qed.

Lemma only_containers_are_callable_witness :
  (({[ "items" := simple ]} : gmap string Schema) !! "items" = Some simple) ∧
  ∀ x u,
    navigate [Field "items"; Keyed x]
      (VObject 0 None (complex_props {[ "items" := simple ]} "root" 1)) u
    = Throw TypeError (allocated 2 u).
Proof.
  assert (({[ "items" := simple ]} : gmap string Schema) !! "items"
          = Some simple) as E by reflexivity.
  split; [exact E |]. intros x u.
  exact (proj2 (proj2 only_containers_are_callable) {[ "items" := simple ]} ∅
           "items" "root" (mkState 0 []) _ _ x u (or_introl E)
           (complex_run {[ "items" := simple ]} "root" (mkState 0 []))).
Defined.

(** ** The tree of the documentation *)

Lemma navigate_simple S steps value s o t u :
  leads S steps simple → steps ≠ [] → S value s = Ok o t →
  ∃ id id' u',
    navigate steps o u =
    Ok (VObject id None
          (marker_props (join value (step_string <$> steps)) id' ∅)) u'.
Proof.
  intros Hl Hne Hrun.
  destruct (navigate_leads S steps simple Hl Hne value s o t Hrun u)
    as (u' & Hnav & _).
  rewrite simple_run in Hnav. by eexists _, _, _.
Qed.

Lemma appPageObject_run s :
  appPageObject s = appPageSchema "root/appPage" (allocated 2 s).
Proof.
  unfold appPageObject, rootObject, rootObjectSchema.
  by apply (read_child _ "appPage" appPageSchema "root" s).
Qed.

Lemma leads_header : leads appPageSchema [Field "header"] headerSchema.
Proof.
  apply leads_field with (child := headerSchema); [reflexivity |].
  apply leads_here.
Qed.

Lemma leads_menu (k : string) :
  k = "button" ∨ k = "container" →
  leads appPageSchema [Field "header"; Field "menu"; Field k] simple.
Proof.
  intros Hk.
  apply leads_field with (child := headerSchema); [reflexivity |].
  apply leads_field
    with (child := complex {[ "button" := simple; "container" := simple ]});
    [reflexivity |].
  apply leads_field with (child := simple); [| apply leads_here].
  destruct Hk as [-> | ->]; reflexivity.
Qed.

Lemma leads_brands :
  leads appPageSchema [Field "footer"; Field "brands"]
    (complex {[ "container" := simple; "items" := byKey simple ]}).
Proof.
  apply leads_field with (child := footerSchema); [reflexivity |].
  apply leads_field
    with (child := complex {[ "container" := simple; "items" := byKey simple ]});
    [reflexivity |].
  apply leads_here.
Qed.

Lemma leads_item id :
  leads appPageSchema
    [Field "footer"; Field "brands"; Field "items"; Keyed id] simple.
Proof.
  apply leads_field with (child := footerSchema); [reflexivity |].
  apply leads_field
    with (child := complex {[ "container" := simple; "items" := byKey simple ]});
    [reflexivity |].
  apply leads_field with (child := byKey simple); [reflexivity |].
  apply leads_key, leads_here.
Qed.

(** X13.  The tree declared in the documentation gives the markup the
    documentation shows: [appPageObject] is the marker [root/appPage], its
    [header] is [root/appPage/header], [footer.brands] is
    [root/appPage/footer/brands], the nodeProps of
    [footer.brands.items(id)] carry [root/appPage/footer/brands/items/id]
    for every id, and the selectors of [header.menu.button] and
    [header.menu.container] are the attribute selectors for their
    paths. *)
Theorem documentation_markup (s : State) :
  ∃ app t,
    appPageObject s = Ok app t ∧
    has_value app "root/appPage" ∧
    (∀ u, ∃ m u',
        navigate [Field "header"] app u = Ok m u' ∧
        has_value m "root/appPage/header") ∧
    (∀ u, ∃ m u',
        navigate [Field "footer"; Field "brands"] app u = Ok m u' ∧
        has_value m "root/appPage/footer/brands") ∧
    (∀ id u, ∃ m u',
        navigate [Field "footer"; Field "brands"; Field "items"; Keyed id]
          app u = Ok m u' ∧
        ∀ w, ∃ i,
          Get m "nodeProps" w =
          Ok (VObject i None
                {[ "data-test" :=
                     Data (VString ("root/appPage/footer/brands/items/"
                                    +:+ stringify id)) true true true ]}) w) ∧
    (∀ u, ∃ m u',
        navigate [Field "header"; Field "menu"; Field "button"] app u
          = Ok m u' ∧
        ∀ w, Get m "selector" w =
             Ok (VString "[data-test='root/appPage/header/menu/button']") w) ∧
    (∀ u, ∃ m u',
        navigate [Field "header"; Field "menu"; Field "container"] app u
          = Ok m u' ∧
        ∀ w, Get m "selector" w =
             Ok (VString "[data-test='root/appPage/header/menu/container']") w).
Proof.
  pose proof (appPageObject_run s) as Happ.
  assert (appPageSchema "root/appPage" (allocated 2 s) =
          Ok (VObject (next_id (allocated 2 s)) None
                (complex_props {[ "header" := headerSchema;
                                  "footer" := footerSchema ]}
                   "root/appPage" (S (next_id (allocated 2 s)))))
             (allocated 2 (allocated 2 s))) as Hrun
    by apply complex_run.
  set (app := VObject (next_id (allocated 2 s)) None _) in Hrun.
  set (t := allocated 2 (allocated 2 s)) in Hrun.
  exists app, t. split; [by rewrite Happ |].
  split; [intros u; unfold app; rewrite Get_undeclared by reflexivity;
          apply Get_marker_value |].
  split; [| split; [| split; [| split]]].
  - intros u.
    apply (navigate_value appPageSchema [Field "header"] headerSchema
             "root/appPage" (allocated 2 s) app t u leads_header
             ltac:(discriminate));
      [by apply keeps_value_complex | exact Hrun].
  - intros u.
    apply (navigate_value appPageSchema [Field "footer"; Field "brands"] _
             "root/appPage" (allocated 2 s) app t u leads_brands
             ltac:(discriminate));
      [by apply keeps_value_complex | exact Hrun].
  - intros id u.
    destruct (navigate_simple appPageSchema
                [Field "footer"; Field "brands"; Field "items"; Keyed id]
                "root/appPage" (allocated 2 s) app t u
                (leads_item id) ltac:(discriminate) Hrun)
      as (i & i' & u' & Hnav).
    eexists _, _. split; [exact Hnav |].
    intros w. exists i'. rewrite Get_marker_nodeProps.
    by rewrite nodeProps_props_literal.
  - intros u.
    destruct (navigate_simple appPageSchema
                [Field "header"; Field "menu"; Field "button"]
                "root/appPage" (allocated 2 s) app t u
                (leads_menu "button" (or_introl eq_refl))
                ltac:(discriminate) Hrun)
      as (i & i' & u' & Hnav).
    eexists _, _. split; [exact Hnav |].
    intros w. by rewrite Get_marker_selector.
  - intros u.
    destruct (navigate_simple appPageSchema
                [Field "header"; Field "menu"; Field "container"]
                "root/appPage" (allocated 2 s) app t u
                (leads_menu "container" (or_intror eq_refl))
                ltac:(discriminate) Hrun)
      as (i & i' & u' & Hnav).
    eexists _, _. split; [exact Hnav |].
    intros w. by rewrite Get_marker_selector.
Qed.
